(** * assert-json-object: the path resolver and the fluent assertion engine

    A shallow embedding of [src/utils.ts] (getValueAtPath) and
    [src/assertJson.ts] (class JsonAssertion, assertJson, assertJsonSoft),
    followed by the properties of the specification that were checked
    against it.

    Conventions of the embedding.
    - A JavaScript value of a JSON-like document is a [value]: a tree of
      objects (own properties in enumeration order), arrays and leaves.
      Numbers are the integers (their decimal numeral is what the template
      literals and JSON.stringify print); strings are sequences of ASCII
      code units.  Members inherited from the built-in prototypes are not
      data of the document and are not part of [value].
    - A computation completes normally or abruptly ([completion]); the
      methods of the class run in a state monad over the store that holds
      the [errors] arrays, because several views alias one array.        *)

From Stdlib Require Import ZArith Ascii String DecimalString Decimal.
From Stdlib Require DecimalNat DecimalZ DecimalFacts.
From stdpp Require Import base option list strings gmap.
From Equations Require Import Equations.
From Equations.Prop Require Import Logic.

Set Warnings "-register-all".

Local Open Scope Z_scope.

(* ===================================================================== *)
(** ** JavaScript values                                                  *)
(* ===================================================================== *)

Inductive value : Type :=
| VUndefined
| VNull
| VBool (b : bool)
| VNumber (n : Z)
| VString (s : string)
| VArray (elems : list value)
| VObject (props : list (string * value)).

(** [new Error(message)] *)
Record Error : Type := mkError { message : string }.

(** The outcome of evaluating an expression or a call: a value, or a
    [throw]. *)
Inductive completion (A : Type) : Type :=
| Normal (a : A)
| Throw (e : Error).
Arguments Normal {A} a.
Arguments Throw {A} e.

Definition is_nullish (v : value) : bool :=
  match v with VUndefined | VNull => true | _ => false end.

(* ===================================================================== *)
(** ** Strings                                                            *)
(* ===================================================================== *)

Definition is_digit (c : ascii) : bool :=
  match Ascii.is_nat c with Some _ => true | None => false end.

Definition string_of_nat (n : nat) : string :=
  NilZero.string_of_uint (Nat.to_uint n).

(** The template-literal / JSON rendering of a number. *)
Definition string_of_Z (n : Z) : string :=
  NilZero.string_of_int (Z.to_int n).

(** [s.split(sep)] for a one-character separator: always at least one
    piece, empty pieces are kept. *)
Fixpoint split (sep : ascii) (s : string) : list string :=
  match s with
  | EmptyString => [EmptyString]
  | String c t =>
      if Ascii.eqb c sep then EmptyString :: split sep t
      else match split sep t with
           | piece :: rest => String c piece :: rest
           | [] => [String c EmptyString]
           end
  end.

(** The longest prefix of digits, and what follows it: how the greedy
    [\d+] consumes input. *)
Fixpoint span_digits (s : string) : string * string :=
  match s with
  | String c t =>
      if is_digit c then let '(ds, r) := span_digits t in (String c ds, r)
      else (EmptyString, s)
  | EmptyString => (EmptyString, EmptyString)
  end.

(** A string of decimal digits ([\d*]). *)
Fixpoint all_digits (s : string) : bool :=
  match s with
  | EmptyString => true
  | String c t => is_digit c && all_digits t
  end.

(** One attempt to match the regular expression [\[(\d+)\]] at the very
    start of [s]: the captured digits and the text after the match.  The
    greedy [\d+] never needs to give digits back, since the character that
    must follow it is not a digit. *)
Definition match_index (s : string) : option (string * string) :=
  match s with
  | String c t =>
      if Ascii.eqb c "["%char then
        match span_digits t with
        | (String d ds, String c' r) =>
            if Ascii.eqb c' "]"%char then Some (String d ds, r) else None
        | _ => None
        end
      else None
  | EmptyString => None
  end.

(** [s.replace(/\[(\d+)\]/g, ".$1")]: scan from the left; where the
    pattern matches, emit a dot and the captured digits and go on after the
    match; elsewhere copy one character and go on with the next. *)
Equations? replace_indices (s : string) : string by wf (String.length s) lt :=
  replace_indices EmptyString := EmptyString;
  replace_indices (String c t) with inspect (match_index (String c t)) := {
    | exist _ (Some (ds, r)) _ := String "."%char (ds +:+ replace_indices r);
    | exist _ None _ := String c (replace_indices t) }.
Proof.
  assert (Hspan : ∀ s a b, span_digits s = (a, b) →
                           (String.length b ≤ String.length s)%nat).
  { clear. induction s as [|x s IH]; intros a b; cbn.
    - intros [= <- <-]. cbn. lia.
    - destruct (is_digit x).
      + destruct (span_digits s) as [a' b'] eqn:E. intros [= <- <-].
        specialize (IH _ _ eq_refl). lia.
      + intros [= <- <-]. cbn. lia. }
  match goal with H : _ = Some _ |- _ => rename H into Hm end.
  destruct (Ascii.eqb c "["%char); [|done].
  destruct (span_digits t) as [[|d ds'] [|c' r']] eqn:E; try done.
  destruct (Ascii.eqb c' "]"%char); [|done].
  injection Hm as <- <-. apply Hspan in E. cbn in E. lia.
Qed.

(** [s.toLowerCase()] *)
Definition lower_char (c : ascii) : ascii :=
  let n := nat_of_ascii c in
  if ((65 <=? n) && (n <=? 90))%nat then ascii_of_nat (n + 32) else c.

Fixpoint toLowerCase (s : string) : string :=
  match s with
  | EmptyString => EmptyString
  | String c t => String (lower_char c) (toLowerCase t)
  end.

(** [hay.includes(needle)] *)
Fixpoint includes (needle hay : string) : bool :=
  if String.prefix needle hay then true
  else match hay with
       | EmptyString => false
       | String _ t => includes needle t
       end.

Definition dquote : ascii := "034"%char.
Definition backslash : ascii := "092"%char.

Definition hex_digit (n : nat) : ascii :=
  if (n <? 10)%nat then ascii_of_nat (48 + n) else ascii_of_nat (87 + n).

(** How JSON.stringify writes one character of a string. *)
Definition json_escape (c : ascii) : string :=
  let n := nat_of_ascii c in
  if Ascii.eqb c dquote then String backslash (String dquote EmptyString)
  else if Ascii.eqb c backslash then String backslash (String backslash EmptyString)
  else if (n =? 8)%nat then String backslash "b"
  else if (n =? 9)%nat then String backslash "t"
  else if (n =? 10)%nat then String backslash "n"
  else if (n =? 12)%nat then String backslash "f"
  else if (n =? 13)%nat then String backslash "r"
  else if (n <? 32)%nat then
    String backslash
      ("u00" +:+ String (hex_digit (n / 16)) (String (hex_digit (n mod 16)) EmptyString))
  else String c EmptyString.

Fixpoint json_escape_all (s : string) : string :=
  match s with
  | EmptyString => EmptyString
  | String c t => json_escape c +:+ json_escape_all t
  end.

Definition json_quote (s : string) : string :=
  String dquote (json_escape_all s +:+ String dquote EmptyString).

(* ===================================================================== *)
(** ** The operations of the language that the source uses                *)
(* ===================================================================== *)

(** [JSON.stringify(v)]: a string, or [undefined] ([None]) for
    [undefined] itself.  Inside an array [undefined] is written [null];
    a property whose value is [undefined] is left out. *)
Fixpoint JSON_stringify (v : value) : option string :=
  match v with
  | VUndefined => None
  | VNull => Some "null"
  | VBool b => Some (if b then "true" else "false")
  | VNumber n => Some (string_of_Z n)
  | VString s => Some (json_quote s)
  | VArray elems =>
      Some ("[" +:+
            String.concat "," (map (fun x => default "null" (JSON_stringify x)) elems)
            +:+ "]")
  | VObject props =>
      Some ("{" +:+
            String.concat ","
              (omap (fun kv => match JSON_stringify (snd kv) with
                               | Some js => Some (json_quote (fst kv) +:+ ":" +:+ js)
                               | None => None
                               end) props)
            +:+ "}")
  end.

(** A value interpolated in a template literal after JSON.stringify:
    [`${JSON.stringify(v)}`]. *)
Definition show_json (v : value) : string :=
  default "undefined" (JSON_stringify v).

(** [String(v)] *)
Fixpoint ToString (v : value) : string :=
  match v with
  | VUndefined => "undefined"
  | VNull => "null"
  | VBool b => if b then "true" else "false"
  | VNumber n => string_of_Z n
  | VString s => s
  | VArray elems =>
      String.concat ","
        (map (fun x => match x with
                       | VUndefined | VNull => EmptyString
                       | _ => ToString x
                       end) elems)
  | VObject _ => "[object Object]"
  end.

(** [typeof v] *)
Definition typeof (v : value) : string :=
  match v with
  | VUndefined => "undefined"
  | VNull => "object"
  | VBool _ => "boolean"
  | VNumber _ => "number"
  | VString _ => "string"
  | VArray _ => "object"
  | VObject _ => "object"
  end.

(** [Array.isArray(v)] *)
Definition Array_isArray (v : value) : bool :=
  match v with VArray _ => true | _ => false end.

(** [!!v] *)
Definition truthy (v : value) : bool :=
  match v with
  | VUndefined | VNull => false
  | VBool b => b
  | VNumber n => negb (n =? 0)
  | VString s => negb (String.eqb s EmptyString)
  | VArray _ | VObject _ => true
  end.

(** An array index is a property key that is the canonical numeral of a
    natural number: ["0"], ["7"], ["12"], but not ["01"] or ["+1"]. *)
Definition array_index (key : string) : option nat :=
  match NilZero.uint_of_string key with
  | Some u =>
      let i := Nat.of_uint u in
      if String.eqb (string_of_nat i) key then Some i else None
  | None => None
  end.

Fixpoint lookup_prop (key : string) (props : list (string * value)) : option value :=
  match props with
  | [] => None
  | (k, v) :: rest => if String.eqb k key then Some v else lookup_prop key rest
  end.

(** The own property [key] of a value that is neither [null] nor
    [undefined]; [undefined] where there is none. *)
Definition get_own (v : value) (key : string) : value :=
  match v with
  | VObject props => default VUndefined (lookup_prop key props)
  | VArray elems =>
      match array_index key with
      | Some i => default VUndefined (elems !! i)
      | None =>
          if String.eqb key "length" then VNumber (Z.of_nat (length elems))
          else VUndefined
      end
  | VString s =>
      match array_index key with
      | Some i =>
          match String.get i s with
          | Some c => VString (String c EmptyString)
          | None => VUndefined
          end
      | None =>
          if String.eqb key "length" then VNumber (Z.of_nat (String.length s))
          else VUndefined
      end
  | _ => VUndefined
  end.

(** [acc[key]]: reading a property of [null] or [undefined] throws. *)
Definition member (acc : value) (key : string) : completion value :=
  if is_nullish acc
  then Throw (mkError ("Cannot read properties of " +:+ ToString acc))
  else Normal (get_own acc key).

(** [acc?.[key]]: the optional chain yields [undefined] on [null] and
    [undefined] and reads the property otherwise. *)
Definition optional_member (acc : value) (key : string) : completion value :=
  if is_nullish acc then Normal VUndefined else member acc key.

(** [l.reduce(f, init)] with a callback that may throw. *)
Fixpoint reduce {A B : Type} (f : B → A → completion B) (l : list A) (init : B)
  : completion B :=
  match l with
  | [] => Normal init
  | x :: rest =>
      match f init x with
      | Normal acc => reduce f rest acc
      | Throw e => Throw e
      end
  end.

(** [try { body } catch { handler }] *)
Definition try_catch {A : Type} (body : completion A) (handler : Error → completion A)
  : completion A :=
  match body with
  | Normal a => Normal a
  | Throw e => handler e
  end.

(* ===================================================================== *)
(** ** src/utils.ts                                                       *)
(* ===================================================================== *)

Definition getValueAtPath (obj : value) (path : string) : completion value :=
  try_catch
    (reduce (fun acc key => optional_member acc key)
            (split "."%char (replace_indices path))
            obj)
    (fun _ => Normal VUndefined).

(* ===================================================================== *)
(** ** The store of error arrays, and computations over it                *)
(* ===================================================================== *)

(** A reference to an array of errors.  Two views that hold the same
    reference see each other's [push]. *)
Definition loc : Type := nat.

(** The store: the arrays of errors that exist, by reference. *)
Abbreviation store := (gmap loc (list Error)).

(** A method call transforms the store and completes normally or throws;
    a [throw] keeps the writes made before it. *)
Definition M (A : Type) : Type := store → completion A * store.

#[global] Instance M_ret : MRet M := λ A a σ, (Normal a, σ).

#[global] Instance M_bind : MBind M := λ A B k m σ,
  match m σ with
  | (Normal a, σ') => k a σ'
  | (Throw e, σ') => (Throw e, σ')
  end.

Definition throw {A : Type} (e : Error) : M A := λ σ, (Throw e, σ).

Definition lift {A : Type} (c : completion A) : M A := λ σ, (c, σ).

(** The array an existing reference denotes. *)
Definition array_at (σ : store) (l : loc) : list Error :=
  default [] (σ !! l).

(** [[]]: a new, empty array. *)
Definition new_array : M loc := λ σ,
  let l := fresh (dom σ) in (Normal l, <[l := []]> σ).

(** [arr.length] *)
Definition array_length (l : loc) : M nat := λ σ, (Normal (length (array_at σ l)), σ).

(** [arr.push(e)] *)
Definition array_push (l : loc) (e : Error) : M unit := λ σ,
  (Normal tt, <[l := array_at σ l ++ [e]]> σ).

(** [[...arr]]: the elements, as a copy. *)
Definition array_spread (l : loc) : M (list Error) := λ σ, (Normal (array_at σ l), σ).

(* ===================================================================== *)
(** ** src/assertJson.ts                                                  *)
(* ===================================================================== *)

Inductive PrimitiveType : Type :=
| TString | TNumber | TBoolean | TObject | TArray | TUndefined | TNull.

Definition PrimitiveType_name (t : PrimitiveType) : string :=
  match t with
  | TString => "string"
  | TNumber => "number"
  | TBoolean => "boolean"
  | TObject => "object"
  | TArray => "array"
  | TUndefined => "undefined"
  | TNull => "null"
  end.

Module SoftOptions.
Record t : Type := mk { soft : option bool; maxErrors : option Z }.
End SoftOptions.

Record MatchValueOptions : Type := { caseInsensitive : option bool }.

(** An instance of the class.  The fields are written by the constructor
    and by [get not] on the clone it has just made, and never afterwards;
    [errors] is a reference into the store. *)
Record JsonAssertion : Type := mkJsonAssertion {
  target : value;
  negated : bool;
  soft : bool;
  errors : loc;
  maxErrors : option Z;
}.

Definition set_negated (b : bool) (this : JsonAssertion) : JsonAssertion :=
  mkJsonAssertion (target this) b (soft this) (errors this) (maxErrors this).
Definition set_soft (b : bool) (this : JsonAssertion) : JsonAssertion :=
  mkJsonAssertion (target this) (negated this) b (errors this) (maxErrors this).
Definition set_errors (l : loc) (this : JsonAssertion) : JsonAssertion :=
  mkJsonAssertion (target this) (negated this) (soft this) l (maxErrors this).
Definition set_maxErrors (m : option Z) (this : JsonAssertion) : JsonAssertion :=
  mkJsonAssertion (target this) (negated this) (soft this) (errors this) m.

(** [opts?.soft], as the condition of an [if]. *)
Definition opts_soft (opts : option SoftOptions.t) : bool :=
  match opts with
  | Some o => default false (SoftOptions.soft o)
  | None => false
  end.

(** [opts?.maxErrors] *)
Definition opts_maxErrors (opts : option SoftOptions.t) : option Z :=
  match opts with
  | Some o => SoftOptions.maxErrors o
  | None => None
  end.

(** [a ?? b] *)
Definition nullish_or {A : Type} (a b : option A) : option A :=
  match a with Some x => Some x | None => b end.

(** [new JsonAssertion(target, opts, sharedErrors, sharedMaxErrors)] *)
Definition new_JsonAssertion (target : value) (opts : option SoftOptions.t)
    (sharedErrors : option loc) (sharedMaxErrors : option Z) : M JsonAssertion :=
  fresh_errors ← new_array;
  let this := mkJsonAssertion target false false fresh_errors None in
  let this := if opts_soft opts then set_soft true this else this in
  let this :=
    match soft this, sharedErrors with
    | true, Some shared => set_errors shared this
    | _, _ => this
    end in
  let this :=
    if soft this
    then set_maxErrors (nullish_or sharedMaxErrors (opts_maxErrors opts)) this
    else this in
  mret this.

(** [get not()] *)
Definition get_not (this : JsonAssertion) : M JsonAssertion :=
  clone ← new_JsonAssertion
             (target this)
             (Some (SoftOptions.mk (Some (soft this)) (maxErrors this)))
             (if soft this then Some (errors this) else None)
             (if soft this then maxErrors this else None);
  mret (set_negated (negb (negated this)) clone).

(** [get isSoft()] *)
Definition get_isSoft (this : JsonAssertion) : bool := soft this.

Definition getErrors (this : JsonAssertion) : M (list Error) :=
  array_spread (errors this).

Definition canCollectError (this : JsonAssertion) : M bool :=
  len ← array_length (errors this);
  mret (negb (soft this)
        || match maxErrors this with
           | None => true
           | Some m => Z.of_nat len <? m
           end).

Definition capacity_message (m : Z) : string :=
  "Maximum number of errors (" +:+ string_of_Z m +:+
  ") reached in soft mode. Further assertions throw immediately.".

Definition handleError (this : JsonAssertion) (err : Error) : M JsonAssertion :=
  if soft this then
    len ← array_length (errors this);
    match maxErrors this with
    | Some m =>
        if Z.of_nat len >=? m then throw (mkError (capacity_message m))
        else _ ← array_push (errors this) err; mret this
    | None => _ ← array_push (errors this) err; mret this
    end
  else throw err.

(** [${this.negated ? "not " : ""}] *)
Definition not_word (this : JsonAssertion) : string :=
  if negated this then "not " else EmptyString.

(** [v !== undefined] *)
Definition is_defined (v : value) : bool :=
  match v with VUndefined => false | _ => true end.

(** [v === null] *)
Definition is_null (v : value) : bool :=
  match v with VNull => true | _ => false end.

(** [a === b] where both sides are results of JSON.stringify. *)
Definition same_json (a b : value) : bool :=
  bool_decide (JSON_stringify a = JSON_stringify b).

Definition toHaveKey (this : JsonAssertion) (path : string) : M JsonAssertion :=
  value ← lift (getValueAtPath (target this) path);
  let exists_ := is_defined value in
  if Bool.eqb exists_ (negated this) then
    let err := mkError ("Expected key '" +:+ path +:+ "' " +:+ not_word this +:+ "to exist") in
    handleError this err
  else mret this.

(** [value === null ? "null" : Array.isArray(value) ? "array" : typeof value] *)
Definition actualType_of (value : value) : string :=
  if is_null value then "null"
  else if Array_isArray value then "array"
  else typeof value.

Definition toBeType (this : JsonAssertion) (path : string) (type : PrimitiveType)
  : M JsonAssertion :=
  value ← lift (getValueAtPath (target this) path);
  let actualType := actualType_of value in
  let match_ := String.eqb actualType (PrimitiveType_name type) in
  if Bool.eqb match_ (negated this) then
    let err := mkError ("Expected '" +:+ path +:+ "' " +:+ not_word this +:+
                        "to be type '" +:+ PrimitiveType_name type +:+
                        "', but got '" +:+ actualType +:+ "'") in
    handleError this err
  else mret this.

Definition toBeDefined (this : JsonAssertion) (path : string) : M JsonAssertion :=
  value ← lift (getValueAtPath (target this) path);
  let isDefined := is_defined value in
  if Bool.eqb isDefined (negated this) then
    let err := mkError ("Expected '" +:+ path +:+ "' " +:+ not_word this +:+ "to be defined") in
    handleError this err
  else mret this.

Definition toBeNull (this : JsonAssertion) (path : string) : M JsonAssertion :=
  value ← lift (getValueAtPath (target this) path);
  let isNull := is_null value in
  if Bool.eqb isNull (negated this) then
    let err := mkError ("Expected '" +:+ path +:+ "' " +:+ not_word this +:+ "to be null") in
    handleError this err
  else mret this.

Definition toBeTruthy (this : JsonAssertion) (path : string) : M JsonAssertion :=
  value ← lift (getValueAtPath (target this) path);
  let isTruthy := truthy value in
  if Bool.eqb isTruthy (negated this) then
    let err := mkError ("Expected '" +:+ path +:+ "' " +:+ not_word this +:+ "to be truthy") in
    handleError this err
  else mret this.

Definition toBeFalsy (this : JsonAssertion) (path : string) : M JsonAssertion :=
  value ← lift (getValueAtPath (target this) path);
  let isFalsy := negb (truthy value) in
  if Bool.eqb isFalsy (negated this) then
    let err := mkError ("Expected '" +:+ path +:+ "' " +:+ not_word this +:+ "to be falsy") in
    handleError this err
  else mret this.

(** [options?.caseInsensitive], as a condition. *)
Definition opt_caseInsensitive (options : option MatchValueOptions) : bool :=
  match options with
  | Some o => default false (caseInsensitive o)
  | None => false
  end.

Definition toMatchValue (this : JsonAssertion) (path : string) (expected : value)
    (options : option MatchValueOptions) : M JsonAssertion :=
  value ← lift (getValueAtPath (target this) path);
  let match_ :=
    match opt_caseInsensitive options, value, expected with
    | true, VString sv, VString se => String.eqb (toLowerCase sv) (toLowerCase se)
    | _, _, _ => same_json value expected
    end in
  if Bool.eqb match_ (negated this) then
    let err := mkError ("Expected value at '" +:+ path +:+ "' " +:+ not_word this +:+
                        "to equal " +:+ show_json expected +:+
                        (if opt_caseInsensitive options then " (case insensitive)"
                         else EmptyString) +:+
                        ", but got " +:+ show_json value) in
    handleError this err
  else mret this.

Definition toContainValue (this : JsonAssertion) (path : string) (expected : value)
  : M JsonAssertion :=
  value ← lift (getValueAtPath (target this) path);
  let contains :=
    match value with
    | VArray elems => existsb (fun v => same_json v expected) elems
    | VString s => includes (ToString expected) s
    | _ => false
    end in
  if Bool.eqb contains (negated this) then
    let err := mkError ("Expected value at '" +:+ path +:+ "' " +:+ not_word this +:+
                        "to contain " +:+ show_json expected +:+
                        ", but got " +:+ show_json value) in
    handleError this err
  else mret this.

Definition toBeGreaterThan (this : JsonAssertion) (path : string) (num : Z)
  : M JsonAssertion :=
  value ← lift (getValueAtPath (target this) path);
  let isGreater :=
    match value with
    | VNumber n => n >? num
    | _ => false
    end in
  if Bool.eqb isGreater (negated this) then
    let err := mkError ("Expected value at '" +:+ path +:+ "' " +:+ not_word this +:+
                        "to be greater than " +:+ string_of_Z num +:+
                        ", but got " +:+ show_json value) in
    handleError this err
  else mret this.

Definition toBeLessThan (this : JsonAssertion) (path : string) (num : Z)
  : M JsonAssertion :=
  value ← lift (getValueAtPath (target this) path);
  let isLess :=
    match value with
    | VNumber n => n <? num
    | _ => false
    end in
  if Bool.eqb isLess (negated this) then
    let err := mkError ("Expected value at '" +:+ path +:+ "' " +:+ not_word this +:+
                        "to be less than " +:+ string_of_Z num +:+
                        ", but got " +:+ show_json value) in
    handleError this err
  else mret this.

Definition toBeOneOf (this : JsonAssertion) (path : string) (values : list value)
  : M JsonAssertion :=
  value ← lift (getValueAtPath (target this) path);
  let found := existsb (fun v => same_json v value) values in
  if Bool.eqb found (negated this) then
    let err := mkError ("Expected value at '" +:+ path +:+ "' " +:+ not_word this +:+
                        "to be one of " +:+ show_json (VArray values) +:+
                        ", but got " +:+ show_json value) in
    handleError this err
  else mret this.

(** The predicate is the caller's code: it returns a boolean or throws. *)
Definition toSatisfy (this : JsonAssertion) (path : string)
    (predicate : value → completion bool) : M JsonAssertion :=
  value ← lift (getValueAtPath (target this) path);
  result ← lift (try_catch (predicate value) (fun err => Throw err));
  if Bool.eqb result (negated this) then
    let err := mkError ("Expected '" +:+ path +:+ "' " +:+ not_word this +:+
                        "to satisfy predicate.") in
    handleError this err
  else mret this.

Definition assertJson (data : value) (opts : option SoftOptions.t) : M JsonAssertion :=
  new_JsonAssertion data opts None None.

(** [opts] has no [soft] of its own here; the spread keeps its
    [maxErrors] and [soft: true] is added. *)
Definition assertJsonSoft (data : value) (opts : option SoftOptions.t) : M JsonAssertion :=
  new_JsonAssertion data (Some (SoftOptions.mk (Some true) (opts_maxErrors opts))) None None.

(* ===================================================================== *)
(** ** Chains of calls                                                    *)
(* ===================================================================== *)

(** One of the twelve check methods, with its arguments. *)
Inductive check : Type :=
| ToHaveKey (path : string)
| ToBeType (path : string) (type : PrimitiveType)
| ToBeDefined (path : string)
| ToBeNull (path : string)
| ToBeTruthy (path : string)
| ToBeFalsy (path : string)
| ToMatchValue (path : string) (expected : value) (options : option MatchValueOptions)
| ToContainValue (path : string) (expected : value)
| ToBeGreaterThan (path : string) (num : Z)
| ToBeLessThan (path : string) (num : Z)
| ToBeOneOf (path : string) (values : list value)
| ToSatisfy (path : string) (predicate : value → completion bool).

(** [this.method(args)] *)
Definition run_check (c : check) (this : JsonAssertion) : M JsonAssertion :=
  match c with
  | ToHaveKey path => toHaveKey this path
  | ToBeType path type => toBeType this path type
  | ToBeDefined path => toBeDefined this path
  | ToBeNull path => toBeNull this path
  | ToBeTruthy path => toBeTruthy this path
  | ToBeFalsy path => toBeFalsy this path
  | ToMatchValue path expected options => toMatchValue this path expected options
  | ToContainValue path expected => toContainValue this path expected
  | ToBeGreaterThan path num => toBeGreaterThan this path num
  | ToBeLessThan path num => toBeLessThan this path num
  | ToBeOneOf path values => toBeOneOf this path values
  | ToSatisfy path predicate => toSatisfy this path predicate
  end.

(** One link of a fluent chain [a.m1(..).not.m2(..)...]: the getter
    [not], or a check. *)
Inductive call : Type :=
| Not
| Check (c : check).

Definition invoke (c : call) (this : JsonAssertion) : M JsonAssertion :=
  match c with
  | Not => get_not this
  | Check c => run_check c this
  end.

(** [this.c1.c2. ... .cn]: each call is made on what the previous one
    returned; a [throw] ends the evaluation. *)
Fixpoint chain (calls : list call) (this : JsonAssertion) : M JsonAssertion :=
  match calls with
  | [] => mret this
  | c :: rest => next ← invoke c this; chain rest next
  end.

(* ===================================================================== *)
(** ** The shape every check method has                                   *)
(* ===================================================================== *)

(** The twelve methods are written out one by one in the source, all to
    the same pattern: resolve the path, compute a boolean, compare it with
    [this.negated], and either return [this] or build an error and hand it
    to [handleError].  The three functions below name the parts of that
    pattern, read off the method bodies; [run_check_policy] proves that
    each method is the pattern instantiated with its parts. *)

Definition check_path (c : check) : string :=
  match c with
  | ToHaveKey path | ToBeType path _ | ToBeDefined path | ToBeNull path
  | ToBeTruthy path | ToBeFalsy path | ToMatchValue path _ _
  | ToContainValue path _ | ToBeGreaterThan path _ | ToBeLessThan path _
  | ToBeOneOf path _ | ToSatisfy path _ => path
  end.

(** The boolean of the method ([exists], [match], [isDefined], ...)
    before it is compared with the negation flag. *)
Definition predicate_on (c : check) (value : value) : completion bool :=
  match c with
  | ToHaveKey _ => Normal (is_defined value)
  | ToBeType _ type => Normal (String.eqb (actualType_of value) (PrimitiveType_name type))
  | ToBeDefined _ => Normal (is_defined value)
  | ToBeNull _ => Normal (is_null value)
  | ToBeTruthy _ => Normal (truthy value)
  | ToBeFalsy _ => Normal (negb (truthy value))
  | ToMatchValue _ expected options =>
      Normal match opt_caseInsensitive options, value, expected with
             | true, VString sv, VString se => String.eqb (toLowerCase sv) (toLowerCase se)
             | _, _, _ => same_json value expected
             end
  | ToContainValue _ expected =>
      Normal match value with
             | VArray elems => existsb (fun v => same_json v expected) elems
             | VString s => includes (ToString expected) s
             | _ => false
             end
  | ToBeGreaterThan _ num => Normal match value with VNumber n => n >? num | _ => false end
  | ToBeLessThan _ num => Normal match value with VNumber n => n <? num | _ => false end
  | ToBeOneOf _ values => Normal (existsb (fun v => same_json v value) values)
  | ToSatisfy _ predicate => predicate value
  end.

(** The error the method builds when the boolean equals the flag. *)
Definition failure (c : check) (this : JsonAssertion) (value : value) : Error :=
  mkError
    match c with
    | ToHaveKey path =>
        "Expected key '" +:+ path +:+ "' " +:+ not_word this +:+ "to exist"
    | ToBeType path type =>
        "Expected '" +:+ path +:+ "' " +:+ not_word this +:+
        "to be type '" +:+ PrimitiveType_name type +:+
        "', but got '" +:+ actualType_of value +:+ "'"
    | ToBeDefined path =>
        "Expected '" +:+ path +:+ "' " +:+ not_word this +:+ "to be defined"
    | ToBeNull path =>
        "Expected '" +:+ path +:+ "' " +:+ not_word this +:+ "to be null"
    | ToBeTruthy path =>
        "Expected '" +:+ path +:+ "' " +:+ not_word this +:+ "to be truthy"
    | ToBeFalsy path =>
        "Expected '" +:+ path +:+ "' " +:+ not_word this +:+ "to be falsy"
    | ToMatchValue path expected options =>
        "Expected value at '" +:+ path +:+ "' " +:+ not_word this +:+
        "to equal " +:+ show_json expected +:+
        (if opt_caseInsensitive options then " (case insensitive)" else EmptyString) +:+
        ", but got " +:+ show_json value
    | ToContainValue path expected =>
        "Expected value at '" +:+ path +:+ "' " +:+ not_word this +:+
        "to contain " +:+ show_json expected +:+ ", but got " +:+ show_json value
    | ToBeGreaterThan path num =>
        "Expected value at '" +:+ path +:+ "' " +:+ not_word this +:+
        "to be greater than " +:+ string_of_Z num +:+ ", but got " +:+ show_json value
    | ToBeLessThan path num =>
        "Expected value at '" +:+ path +:+ "' " +:+ not_word this +:+
        "to be less than " +:+ string_of_Z num +:+ ", but got " +:+ show_json value
    | ToBeOneOf path values =>
        "Expected value at '" +:+ path +:+ "' " +:+ not_word this +:+
        "to be one of " +:+ show_json (VArray values) +:+ ", but got " +:+ show_json value
    | ToSatisfy path _ =>
        "Expected '" +:+ path +:+ "' " +:+ not_word this +:+ "to satisfy predicate."
    end.

(** What a check decides on a view, before the failure is reported:
    [Normal None] when it passes, [Normal (Some err)] when it fails with
    the failure [err], [Throw e] when the caller's predicate threw [e]. *)
Definition verdict (c : check) (this : JsonAssertion) : completion (option Error) :=
  match getValueAtPath (target this) (check_path c) with
  | Normal value =>
      match predicate_on c value with
      | Normal b =>
          Normal (if Bool.eqb b (negated this) then Some (failure c this value) else None)
      | Throw e => Throw e
      end
  | Throw e => Throw e
  end.

(* ===================================================================== *)
(** ** Deep equality, as the specification words it                       *)
(* ===================================================================== *)

(** The structural comparison of the specification: leaves by value,
    sequences element by element in order, mappings by having the same
    keys with deep-equal values, whatever the order of the keys.  It is a
    reading of the specification's sentence, written to be compared with
    what [toMatchValue] computes; the source has no such function. *)
Fixpoint deep_equal (a b : value) : bool :=
  match a, b with
  | VUndefined, VUndefined => true
  | VNull, VNull => true
  | VBool x, VBool y => Bool.eqb x y
  | VNumber x, VNumber y => x =? y
  | VString x, VString y => String.eqb x y
  | VArray xs, VArray ys =>
      (fix elems (xs ys : list value) : bool :=
         match xs, ys with
         | [], [] => true
         | x :: xs', y :: ys' => deep_equal x y && elems xs' ys'
         | _, _ => false
         end) xs ys
  | VObject ps, VObject qs =>
      (fix keys (ps : list (string * value)) : bool :=
         match ps with
         | [] => true
         | (k, x) :: ps' =>
             match lookup_prop k qs with
             | Some y => deep_equal x y && keys ps'
             | None => false
             end
         end) ps
      && forallb (fun kv => bool_decide (is_Some (lookup_prop (fst kv) ps))) qs
  | _, _ => false
  end.

(* ===================================================================== *)
(** ** Notions used to state the properties                               *)
(* ===================================================================== *)

(** One step of the walk: what [acc?.[key]] evaluates to. *)
Definition step (acc : value) (key : string) : value :=
  if is_nullish acc then VUndefined else get_own acc key.



(** Two stores in which every reference reads the same array. *)
Definition store_equiv (σ1 σ2 : store) : Prop :=
  ∀ l, array_at σ1 l = array_at σ2 l.

(** The view can still record a failure: no limit, or fewer recorded
    failures than the limit. *)
Definition has_capacity (this : JsonAssertion) (σ : store) : Prop :=
  match maxErrors this with
  | None => True
  | Some m => Z.of_nat (length (array_at σ (errors this))) < m
  end.

(** When two evaluations have the same outcome: both throw the same
    error or both return a view of the same document, mode and negation
    flag, and every array of the store reads the same afterwards (so the
    same failures are recorded, in the same order). *)
Definition same_outcome
    (r1 r2 : completion JsonAssertion * store) : Prop :=
  store_equiv (snd r1) (snd r2)
  ∧ match fst r1, fst r2 with
    | Normal a, Normal b =>
        target a = target b ∧ negated a = negated b ∧ soft a = soft b
    | Throw e1, Throw e2 => e1 = e2
    | _, _ => False
    end.

(** Documents and values of the examples. *)
Definition doc_foo : value := VObject [("foo", VNumber 1)].
Definition doc_score : value := VObject [("score", VNumber 42)].

Definition obj_ab : value := VObject [("a", VNumber 1); ("b", VNumber 2)].
Definition obj_ba : value := VObject [("b", VNumber 2); ("a", VNumber 1)].
Definition doc_o : value := VObject [("o", obj_ab)].

Definition doc_user : value :=
  VObject [("user", VObject [("name", VString "Alice"); ("age", VNumber 30)])].

Definition doc_roles : value :=
  VObject [("user", VObject [("name", VNumber 123); ("active", VString "x");
                             ("role", VNull)])].

Definition doc_arr : value :=
  VObject [("arr", VArray [VObject [("id", VNumber 1)]; VObject [("id", VNumber 2)]])].

(** Views and stores of the examples: a strict view of [{foo: 1}], and a
    soft view with [maxErrors = 1] whose one slot is taken. *)
Definition view_strict : JsonAssertion := mkJsonAssertion doc_foo false false 0%nat None.
Definition view_soft : JsonAssertion := mkJsonAssertion doc_foo false true 0%nat (Some 1).
Definition store_new : store := {[ 0%nat := [] ]}.
Definition store_full : store :=
  {[ 0%nat := [mkError "Expected key 'bar' to exist"] ]}.
Definition failing_predicate : value → completion bool :=
  fun _ => Throw (mkError "predicate failed").

Ltac unfold_M :=
  unfold mbind, M_bind, mret, M_ret, lift, throw, new_array, array_length,
    array_push, array_spread in *.

(* ===================================================================== *)
(** ** Notions used by the further properties                             *)
(* ===================================================================== *)



(** The caller's predicate never throws (the other checks have no code
    of the caller in them). *)
Definition faultless (c : check) : Prop :=
  match c with
  | ToSatisfy _ predicate => ∀ v, ∃ b, predicate v = Normal b
  | _ => True
  end.

Definition faultless_call (c : call) : Prop :=
  match c with
  | Not => True
  | Check c => faultless c
  end.

(** The negation flag after the getters [not] of a chain: each one
    inverts it, the checks leave it alone. *)
Fixpoint flag_after (calls : list call) (flag : bool) : bool :=
  match calls with
  | [] => flag
  | Not :: rest => flag_after rest (negb flag)
  | Check _ :: rest => flag_after rest flag
  end.

(** The failures of the failing checks of a chain, in the order of the
    calls, each judged with the flag it is reached with. *)
Fixpoint failures_of (calls : list call) (this : JsonAssertion) : list Error :=
  match calls with
  | [] => []
  | Not :: rest => failures_of rest (set_negated (negb (negated this)) this)
  | Check c :: rest =>
      match verdict c this with
      | Normal (Some err) => err :: failures_of rest this
      | _ => failures_of rest this
      end
  end.

(** How an evaluation ended. *)
Definition returns {A : Type} (r : completion A * store) : Prop :=
  ∃ a, fst r = Normal a.
Definition throws {A : Type} (r : completion A * store) : Prop :=
  ∃ e, fst r = Throw e.

(** A soft view with room for [n] more failures. *)
Definition room_for (n : nat) (this : JsonAssertion) (σ : store) : Prop :=
  match maxErrors this with
  | None => True
  | Some m => Z.of_nat (length (array_at σ (errors this)) + n) ≤ m
  end.

(** The values compared as a whole: everything but arrays and objects. *)
Definition scalar (v : value) : bool :=
  match v with
  | VArray _ | VObject _ => false
  | _ => true
  end.

(** Reading JSON text back, as far as the proofs need it: the value of a
    hexadecimal digit, the first character of an escaped string, and the
    sort of value a text starts like. *)
Definition hex_value (c : ascii) : option nat :=
  let n := nat_of_ascii c in
  if ((48 <=? n) && (n <=? 57))%nat then Some (n - 48)%nat
  else if ((97 <=? n) && (n <=? 102))%nat then Some (n - 87)%nat
  else None.

Definition unescape_head (s : string) : option (ascii * string) :=
  match s with
  | EmptyString => None
  | String c r =>
      if Ascii.eqb c dquote then None
      else if Ascii.eqb c backslash then
        match r with
        | EmptyString => None
        | String e r' =>
            if Ascii.eqb e dquote then Some (dquote, r')
            else if Ascii.eqb e backslash then Some (backslash, r')
            else if Ascii.eqb e "b"%char then Some (ascii_of_nat 8, r')
            else if Ascii.eqb e "t"%char then Some (ascii_of_nat 9, r')
            else if Ascii.eqb e "n"%char then Some (ascii_of_nat 10, r')
            else if Ascii.eqb e "f"%char then Some (ascii_of_nat 12, r')
            else if Ascii.eqb e "r"%char then Some (ascii_of_nat 13, r')
            else if Ascii.eqb e "u"%char then
              match r' with
              | String _ (String _ (String x (String y r''))) =>
                  match hex_value x, hex_value y with
                  | Some a, Some b => Some (ascii_of_nat (16 * a + b), r'')
                  | _, _ => None
                  end
              | _ => None
              end
            else None
        end
      else Some (c, r)
  end.

Inductive json_sort : Type :=
| SUndefined | SNull | SBool | SNumber | SString | SArray | SObject | SOther.

Definition sort_of_text (js : option string) : json_sort :=
  match js with
  | None => SUndefined
  | Some EmptyString => SOther
  | Some (String c _) =>
      if Ascii.eqb c dquote then SString
      else if Ascii.eqb c "["%char then SArray
      else if Ascii.eqb c "{"%char then SObject
      else if Ascii.eqb c "n"%char then SNull
      else if Ascii.eqb c "t"%char || Ascii.eqb c "f"%char then SBool
      else if is_digit c || Ascii.eqb c "-"%char then SNumber
      else SOther
  end.

Definition sort_of_value (v : value) : json_sort :=
  match v with
  | VUndefined => SUndefined
  | VNull => SNull
  | VBool _ => SBool
  | VNumber _ => SNumber
  | VString _ => SString
  | VArray _ => SArray
  | VObject _ => SObject
  end.

(* ===================================================================== *)
(** * Properties                                                          *)
(* ===================================================================== *)

(** ** Strings and the normalisation of paths *)

Lemma span_digits_length s ds r :
  span_digits s = (ds, r) → (String.length r ≤ String.length s)%nat.
Proof.
  revert ds r. induction s as [|c t IH]; intros ds r; simpl.
  - intros [= <- <-]. simpl. lia.
  - destruct (is_digit c).
    + destruct (span_digits t) as [ds' r'] eqn:E. intros [= <- <-].
      specialize (IH _ _ eq_refl). lia.
    + intros [= <- <-]. simpl. lia.
Qed.

Lemma match_index_length s ds r :
  match_index s = Some (ds, r) → (String.length r < String.length s)%nat.
Proof.
  destruct s as [|c t]; [done|]. unfold match_index.
  destruct (Ascii.eqb c "["%char); [|done].
  destruct (span_digits t) as [[|d ds'] [|c' r']] eqn:E; try done.
  destruct (Ascii.eqb c' "]"%char); [|done].
  intros [= <- <-]. apply span_digits_length in E. simpl in *. lia.
Qed.

Lemma str_app_cons c (s x : string) : String c s +:+ x = String c (s +:+ x).
Proof. reflexivity. Qed.

Lemma str_app_nil_l (x : string) : EmptyString +:+ x = x.
Proof. reflexivity. Qed.

Lemma str_app_nil_r (s : string) : s +:+ EmptyString = s.
Proof. induction s as [|c s IH]; [done|]. by rewrite str_app_cons, IH. Qed.

Lemma str_app_assoc (a b c : string) : (a +:+ b) +:+ c = a +:+ (b +:+ c).
Proof.
  induction a as [|x a IH]; [reflexivity|]. by rewrite !str_app_cons, IH.
Qed.

Lemma replace_indices_cons c t :
  replace_indices (String c t) =
  match match_index (String c t) with
  | Some (ds, r) => String "."%char (ds +:+ replace_indices r)
  | None => String c (replace_indices t)
  end.
Proof.
  simp replace_indices.
  destruct (inspect (match_index (String c t))) as [[[ds r]|] e];
    simp replace_indices; rewrite e; reflexivity.
Qed.

Lemma digit_not_bracket d : is_digit d = true → Ascii.eqb d "["%char = false.
Proof.
  intros Hd. destruct (Ascii.eqb_spec d "["%char) as [->|]; [discriminate|done].
Qed.

(** A run of digits followed by a character that is no digit: the greedy
    [\d+] takes exactly the run. *)
Lemma span_digits_run ds c x :
  all_digits ds = true → is_digit c = false →
  span_digits (ds +:+ String c x) = (ds, String c x).
Proof.
  intros Hds Hc. induction ds as [|d ds IH].
  - rewrite str_app_nil_l. cbn. by rewrite Hc.
  - cbn in Hds. apply andb_prop in Hds as [Hd Hds].
    rewrite str_app_cons. cbn. by rewrite Hd, (IH Hds).
Qed.

Lemma span_digits_all s ds r : span_digits s = (ds, r) → all_digits ds = true.
Proof.
  revert ds r. induction s as [|c t IH]; intros ds r; cbn.
  - by intros [= <- <-].
  - destruct (is_digit c) eqn:Hc.
    + destruct (span_digits t) as [ds' r'] eqn:E. intros [= <- <-].
      cbn. rewrite Hc. eauto.
    + by intros [= <- <-].
Qed.

Lemma span_digits_split s ds r : span_digits s = (ds, r) → s = ds +:+ r.
Proof.
  revert ds r. induction s as [|c t IH]; intros ds r; cbn.
  - by intros [= <- <-].
  - destruct (is_digit c) eqn:Hc.
    + destruct (span_digits t) as [ds' r'] eqn:E. intros [= <- <-].
      rewrite str_app_cons. f_equal. eauto.
    + by intros [= <- <-].
Qed.

(** Text added after a stop character does not change what [\d+] took. *)
Lemma span_digits_more s ds c r x :
  span_digits s = (ds, String c r) →
  span_digits (s +:+ x) = (ds, String c r +:+ x).
Proof.
  revert ds. induction s as [|a t IH]; intros ds.
  - intros [=].
  - rewrite str_app_cons. cbn. destruct (is_digit a) eqn:Ha.
    + destruct (span_digits t) as [ds' r'] eqn:E. intros [= <- ->].
      by rewrite (IH _ eq_refl).
    + intros [= <- -> ->]. by rewrite str_app_cons.
Qed.

Lemma span_digits_end s ds c x :
  span_digits s = (ds, EmptyString) → is_digit c = false →
  span_digits (s +:+ String c x) = (ds, String c x).
Proof.
  intros Hs Hc. pose proof (span_digits_split _ _ _ Hs) as ->.
  pose proof (span_digits_all _ _ _ Hs) as Hds.
  rewrite str_app_nil_r. by apply span_digits_run.
Qed.

(** A match stays a match when text is added after it. *)
Lemma match_index_more s ds r x :
  match_index s = Some (ds, r) → match_index (s +:+ x) = Some (ds, r +:+ x).
Proof.
  destruct s as [|a t]; [done|]. rewrite str_app_cons. cbn.
  destruct (Ascii.eqb a "["%char); [|done].
  destruct (span_digits t) as [[|d ds'] [|c' r']] eqn:E; try done.
  destruct (Ascii.eqb c' "]"%char) eqn:Hc'; [|done].
  intros [= <- <-]. rewrite (span_digits_more _ _ _ _ x E), str_app_cons.
  by rewrite Hc'.
Qed.

(** A failed attempt stays failed when the added text starts with a
    character that is neither a digit nor the closing bracket. *)
Lemma match_index_blocked a t c x :
  match_index (String a t) = None →
  is_digit c = false → Ascii.eqb c "]"%char = false →
  match_index (String a (t +:+ String c x)) = None.
Proof.
  cbn. intros Hm Hc Hb.
  destruct (Ascii.eqb a "["%char); [|done].
  destruct (span_digits t) as [ds [|c' r']] eqn:E.
  - rewrite (span_digits_end _ _ _ x E Hc). rewrite Hb. by destruct ds.
  - rewrite (span_digits_more _ _ _ _ (String c x) E), str_app_cons.
    destruct ds; [done|]. by destruct (Ascii.eqb c' "]"%char).
Qed.

(** Normalisation splits at such a character. *)
Lemma replace_indices_app_block pre c x :
  is_digit c = false → Ascii.eqb c "]"%char = false →
  replace_indices (pre +:+ String c x) =
  replace_indices pre +:+ replace_indices (String c x).
Proof.
  intros Hc Hb.
  remember (String.length pre) as n eqn:Hn. revert pre Hn.
  induction n as [n IH] using lt_wf_ind. intros [|a t] Hn.
  - reflexivity.
  - rewrite str_app_cons.
    rewrite (replace_indices_cons a (t +:+ String c x)), (replace_indices_cons a t).
    destruct (match_index (String a t)) as [[ds r]|] eqn:E.
    + pose proof (match_index_more _ _ _ (String c x) E) as E'.
      rewrite str_app_cons in E'.
      rewrite E'. pose proof (match_index_length _ _ _ E) as Hlt.
      rewrite (IH (String.length r)); [|lia|done].
      by rewrite str_app_cons, str_app_assoc.
    + rewrite (match_index_blocked _ _ _ _ E Hc Hb).
      cbn in Hn. rewrite (IH (String.length t)); [|lia|done].
      by rewrite str_app_cons.
Qed.

Lemma replace_indices_digits ds post :
  all_digits ds = true →
  replace_indices (ds +:+ post) = ds +:+ replace_indices post.
Proof.
  induction ds as [|d ds IH]; [done|]. cbn. intros [Hd Hds]%andb_prop.
  rewrite !str_app_cons, replace_indices_cons. cbn.
  rewrite (digit_not_bracket _ Hd). by rewrite IH.
Qed.

(** The pattern matches a bracketed run of digits, whatever follows. *)
Lemma replace_indices_bracket ds post :
  ds ≠ EmptyString → all_digits ds = true →
  replace_indices (String "["%char (ds +:+ String "]"%char post)) =
  String "."%char (ds +:+ replace_indices post).
Proof.
  intros Hne Hds. rewrite replace_indices_cons. cbn.
  rewrite (span_digits_run ds "]"%char post Hds eq_refl).
  destruct ds as [|d ds]; [done|]. reflexivity.
Qed.

Lemma replace_indices_dot ds post :
  all_digits ds = true →
  replace_indices (String "."%char (ds +:+ post)) =
  String "."%char (ds +:+ replace_indices post).
Proof.
  intros Hds. rewrite replace_indices_cons. cbn.
  by rewrite replace_indices_digits.
Qed.

(** ** The resolver *)

Lemma optional_member_step acc key : optional_member acc key = Normal (step acc key).
Proof. unfold optional_member, member, step. by destruct (is_nullish acc). Qed.

Lemma reduce_optional_member keys obj :
  reduce (fun acc key => optional_member acc key) keys obj
  = Normal (fold_left step keys obj).
Proof.
  revert obj. induction keys as [|k keys IH]; intros obj; cbn; [done|].
  rewrite optional_member_step. apply IH.
Qed.

(** The [catch] of the resolver is never entered: the optional chain
    already answers [undefined] where a plain member access would throw. *)
Lemma getValueAtPath_walk obj path :
  getValueAtPath obj path
  = Normal (fold_left step (split "."%char (replace_indices path)) obj).
Proof. unfold getValueAtPath. by rewrite reduce_optional_member. Qed.

(** ** The store *)

Lemma array_at_insert_eq σ l (xs : list Error) : array_at (<[l := xs]> σ) l = xs.
Proof. unfold array_at. by rewrite lookup_insert_eq. Qed.

Lemma array_at_insert_ne σ l l' (xs : list Error) :
  l ≠ l' → array_at (<[l := xs]> σ) l' = array_at σ l'.
Proof. intros. unfold array_at. by rewrite lookup_insert_ne. Qed.

(** A new empty array is not seen through any reference that existed. *)
Lemma array_at_fresh σ l :
  array_at (<[fresh (dom σ) := []]> σ) l = array_at σ l.
Proof.
  destruct (decide (fresh (dom σ) = l)) as [<-|Hne].
  - rewrite array_at_insert_eq. unfold array_at.
    by rewrite (not_elem_of_dom_1 σ (fresh (dom σ)) (is_fresh (dom σ))).
  - by apply array_at_insert_ne.
Qed.

Lemma new_JsonAssertion_eq target opts sharedErrors sharedMaxErrors σ :
  new_JsonAssertion target opts sharedErrors sharedMaxErrors σ =
  (Normal (mkJsonAssertion target false (opts_soft opts)
             (if opts_soft opts then default (fresh (dom σ)) sharedErrors
              else fresh (dom σ))
             (if opts_soft opts
              then nullish_or sharedMaxErrors (opts_maxErrors opts) else None)),
   <[fresh (dom σ) := []]> σ).
Proof.
  unfold new_JsonAssertion. unfold_M.
  destruct (opts_soft opts); cbn; [|done]. by destruct sharedErrors.
Qed.

Lemma get_not_eq this σ :
  get_not this σ =
  (Normal (mkJsonAssertion (target this) (negb (negated this)) (soft this)
             (if soft this then errors this else fresh (dom σ))
             (if soft this then maxErrors this else None)),
   <[fresh (dom σ) := []]> σ).
Proof.
  unfold get_not. unfold mbind, M_bind. rewrite new_JsonAssertion_eq. cbn.
  unfold mret, M_ret. destruct (soft this); cbn; [|done].
  by destruct (maxErrors this).
Qed.

Lemma handleError_strict this err σ :
  soft this = false → handleError this err σ = (Throw err, σ).
Proof. intros H. unfold handleError. by rewrite H. Qed.

Lemma handleError_full this err σ m :
  soft this = true → maxErrors this = Some m →
  m ≤ Z.of_nat (length (array_at σ (errors this))) →
  handleError this err σ = (Throw (mkError (capacity_message m)), σ).
Proof.
  intros Hs Hm Hle. unfold handleError. rewrite Hs, Hm. unfold_M.
  assert ((Z.of_nat (length (array_at σ (errors this))) >=? m) = true) as ->; [|done].
  rewrite Z.geb_leb. by apply Z.leb_le.
Qed.

Lemma handleError_record this err σ :
  soft this = true → has_capacity this σ →
  handleError this err σ =
  (Normal this, <[errors this := array_at σ (errors this) ++ [err]]> σ).
Proof.
  intros Hs Hc. unfold handleError, has_capacity in *. rewrite Hs. unfold_M.
  destruct (maxErrors this) as [m|]; [|done].
  assert ((Z.of_nat (length (array_at σ (errors this))) >=? m) = false) as ->; [|done].
  rewrite Z.geb_leb. by apply Z.leb_gt.
Qed.

(** Every check method is the shared pattern. *)
Lemma run_check_policy c this σ :
  run_check c this σ =
  match verdict c this with
  | Normal None => (Normal this, σ)
  | Normal (Some err) => handleError this err σ
  | Throw e => (Throw e, σ)
  end.
Proof.
  destruct c; unfold verdict; cbn [run_check check_path predicate_on];
    unfold toHaveKey, toBeType, toBeDefined, toBeNull, toBeTruthy, toBeFalsy,
      toMatchValue, toContainValue, toBeGreaterThan, toBeLessThan, toBeOneOf,
      toSatisfy, mbind, M_bind, lift;
    (destruct (getValueAtPath (target this) path) as [value|e]; [|done]);
    try (destruct (predicate value) as [b|e]; cbn [try_catch]; [|done]);
    match goal with
    | |- context [Bool.eqb ?b (negated this)] =>
        destruct (Bool.eqb b (negated this)); reflexivity
    end.
Qed.

(** ** Path resolution *)

(** C4. Path resolution is total and never raises: for every document and
    every path string the resolver completes normally with a value
    ([undefined] is the absent marker); no exception reaches the caller. *)
Theorem getValueAtPath_never_throws (obj : value) (path : string) :
  ∃ v : value, getValueAtPath obj path = Normal v
               ∧ ∀ e : Error, getValueAtPath obj path ≠ Throw e.
Proof.
  rewrite getValueAtPath_walk. eexists. split; [reflexivity|]. intros e [=].
Qed.






Lemma split_app_sep (sep : ascii) (p r : string) :
  split sep (p +:+ String sep r) = split sep p ++ split sep r.
Proof.
  induction p as [|c p IH].
  - rewrite str_app_nil_l. cbn. by rewrite Ascii.eqb_refl.
  - rewrite str_app_cons. cbn. destruct (Ascii.eqb c sep); [by rewrite IH|].
    rewrite IH. destruct (split sep p) as [|piece rest] eqn:E; [|done].
    exfalso. clear -E. destruct p as [|c' p']; [done|cbn in E].
    destruct (Ascii.eqb c' sep); [done|]. by destruct (split sep p').
Qed.

Lemma split_digits ds : all_digits ds = true → split "."%char ds = [ds].
Proof.
  induction ds as [|d ds IH]; [done|]. cbn. intros [Hd Hds]%andb_prop.
  assert (Ascii.eqb d "."%char = false) as ->.
  { destruct (Ascii.eqb_spec d "."%char) as [->|]; [discriminate|done]. }
  by rewrite (IH Hds).
Qed.

(** C8. A bracketed numeric index [[N]] is an ordinary step with key [N]:
    a path with [[N]] resolves as the path with [.N] in its place, and
    resolving [pre[N].rest] is resolving [rest] from the value reached by
    one ordinary step [N] from what [pre] resolves to. *)
Theorem bracket_index_is_ordinary_step (doc : value) (pre ds post : string) :
  ds ≠ EmptyString → all_digits ds = true →
  getValueAtPath doc (pre +:+ "[" +:+ ds +:+ "]" +:+ post)
  = getValueAtPath doc (pre +:+ "." +:+ ds +:+ post)
  ∧ ∀ v : value, getValueAtPath doc pre = Normal v →
      getValueAtPath doc (pre +:+ "[" +:+ ds +:+ "]")
      = optional_member v ds
      ∧ getValueAtPath doc (pre +:+ "[" +:+ ds +:+ "]." +:+ post)
        = getValueAtPath (step v ds) post.
Proof.
  intros Hne Hds.
  assert (Hb : ∀ q, replace_indices (pre +:+ "[" +:+ ds +:+ "]" +:+ q)
                    = replace_indices pre +:+ "." +:+ ds +:+ replace_indices q).
  { intros q. change ("[" +:+ ds +:+ "]" +:+ q) with (String "["%char (ds +:+ String "]"%char q)).
    rewrite replace_indices_app_block by done.
    by rewrite replace_indices_bracket. }
  split.
  - rewrite !getValueAtPath_walk. f_equal. f_equal. rewrite Hb.
    change ("." +:+ ds +:+ post) with (String "."%char (ds +:+ post)).
    rewrite replace_indices_app_block by done.
    by rewrite replace_indices_dot.
  - intros v Hv. rewrite getValueAtPath_walk in Hv. injection Hv as Hv.
    split.
    + rewrite optional_member_step, getValueAtPath_walk.
      change "]" with ("]" +:+ EmptyString). rewrite Hb.
      rewrite replace_indices_equation_1, str_app_nil_r.
      change ("." +:+ ds) with (String "."%char ds).
      rewrite split_app_sep, (split_digits ds), fold_left_app, Hv by done.
      reflexivity.
    + rewrite !getValueAtPath_walk.
      change ("]." +:+ post) with ("]" +:+ String "."%char post). rewrite Hb.
      rewrite (replace_indices_cons "."%char post). cbn [match_index Ascii.eqb].
      cbn.
      change ("." +:+ ds +:+ String "."%char (replace_indices post))
        with (String "."%char (ds +:+ String "."%char (replace_indices post))).
      rewrite split_app_sep, split_app_sep, (split_digits ds) by done.
      rewrite !fold_left_app, Hv. reflexivity.
Qed.

Lemma bracket_index_witness :
  "0" ≠ EmptyString ∧ all_digits "0" = true
  ∧ getValueAtPath doc_arr "arr[0].id" = getValueAtPath doc_arr "arr.0.id"
  ∧ getValueAtPath doc_arr "arr[0].id"
    = getValueAtPath (step (VArray [VObject [("id", VNumber 1)];
                                    VObject [("id", VNumber 2)]]) "0") "id".
Proof.
  assert (H0 : "0" ≠ EmptyString) by discriminate.
  split; [exact H0|]. split; [reflexivity|].
  destruct (bracket_index_is_ordinary_step doc_arr "arr" "0" "id" H0 eq_refl)
    as [_ H2].
  destruct (H2 _ eq_refl) as [_ H3].
  split; [|exact H3].
  exact (proj1 (bracket_index_is_ordinary_step doc_arr "arr" "0" ".id" H0 eq_refl)).
Defined.

(** ** Failure reporting *)

(** C3. In soft mode with [maxErrors = N], once [N] failures are recorded,
    a further failing check throws at once an error whose message is the
    capacity message and names [N]; the failure that triggered it is not
    appended: the store is untouched and [getErrors()] still has exactly
    [N] entries. *)
Theorem soft_capacity_exceeded
    (this : JsonAssertion) (σ : store) (c : check)
    (err : Error) (N : Z) :
  soft this = true →
  maxErrors this = Some N →
  Z.of_nat (length (array_at σ (errors this))) = N →
  verdict c this = Normal (Some err) →
  ∃ e : Error,
    run_check c this σ = (Throw e, σ)
    ∧ message e = capacity_message N
    ∧ message e = "Maximum number of errors (" +:+ string_of_Z N +:+
                  ") reached in soft mode. Further assertions throw immediately."
    ∧ ∃ errs, getErrors this σ = (Normal errs, σ) ∧ Z.of_nat (length errs) = N.
Proof.
  intros Hs Hm Hn Hv. eexists. rewrite run_check_policy, Hv.
  rewrite (handleError_full this err σ N Hs Hm) by lia.
  repeat split; eauto.
Qed.

Lemma soft_capacity_witness :
  soft view_soft = true ∧ maxErrors view_soft = Some 1
  ∧ Z.of_nat (length (array_at store_full (errors view_soft))) = 1
  ∧ verdict (ToHaveKey "baz") view_soft
    = Normal (Some (mkError "Expected key 'baz' to exist"))
  ∧ (a ← assertJson doc_foo (Some (SoftOptions.mk (Some true) (Some 1)));
     chain [Check (ToHaveKey "bar")] a) ∅ = (Normal view_soft, store_full)
  ∧ ∃ e, run_check (ToHaveKey "baz") view_soft store_full = (Throw e, store_full)
         ∧ message e = capacity_message 1.
Proof.
  assert (Hv : verdict (ToHaveKey "baz") view_soft
               = Normal (Some (mkError "Expected key 'baz' to exist")))
    by reflexivity.
  assert (Hn : Z.of_nat (length (array_at store_full (errors view_soft))) = 1)
    by reflexivity.
  repeat (split; [reflexivity|]).
  destruct (soft_capacity_exceeded view_soft store_full (ToHaveKey "baz") _ 1
              eq_refl eq_refl Hn Hv) as (e & Hr & Hm & _).
  exists e. split; [exact Hr|exact Hm].
Defined.

Lemma chain_app calls1 calls2 this σ :
  chain (calls1 ++ calls2) this σ =
  match chain calls1 this σ with
  | (Normal next, σ') => chain calls2 next σ'
  | (Throw e, σ') => (Throw e, σ')
  end.
Proof.
  revert this σ. induction calls1 as [|c calls1 IH]; intros this σ; [done|].
  cbn [app chain]. unfold mbind, M_bind.
  destruct (invoke c this σ) as [[next|e] σ']; [apply IH|done].
Qed.

(** In strict mode a call leaves every array as it was and returns a
    strict view. *)
Lemma strict_invoke (c : call) this σ r σ' :
  soft this = false → invoke c this σ = (r, σ') →
  store_equiv σ' σ
  ∧ ∀ next, r = Normal next →
      soft next = false
      ∧ (array_at σ (errors this) = [] → array_at σ' (errors next) = []).
Proof.
  intros Hs. destruct c as [|c]; cbn [invoke].
  - rewrite get_not_eq, Hs. intros [= <- <-]. split.
    + intros l. apply array_at_fresh.
    + intros next [= <-]. cbn. split; [done|]. intros _. apply array_at_insert_eq.
  - rewrite run_check_policy.
    destruct (verdict c this) as [[err|]|e].
    + rewrite (handleError_strict _ _ _ Hs). intros [= <- <-]. by split.
    + intros [= <- <-]. split; [done|]. by intros next [= <-].
    + intros [= <- <-]. by split.
Qed.

Lemma strict_chain calls this σ r σ' :
  soft this = false → array_at σ (errors this) = [] →
  chain calls this σ = (r, σ') →
  store_equiv σ' σ
  ∧ ∀ next, r = Normal next → soft next = false ∧ array_at σ' (errors next) = [].
Proof.
  revert this σ. induction calls as [|c calls IH]; intros this σ Hs He.
  - cbn. unfold mret, M_ret. intros [= <- <-]. split; [done|].
    by intros next [= <-].
  - cbn [chain]. unfold mbind, M_bind.
    destruct (invoke c this σ) as [[next|e] σ1] eqn:Hi.
    + destruct (strict_invoke _ _ _ _ _ Hs Hi) as [Heq Hn].
      destruct (Hn next eq_refl) as [Hs' He'].
      intros Hc. destruct (IH _ _ Hs' (He' He) Hc) as [Heq' Hn'].
      split; [|done]. intros l. by rewrite Heq', Heq.
    + destruct (strict_invoke _ _ _ _ _ Hs Hi) as [Heq _].
      intros [= <- <-]. by split.
Qed.

(** C5. In strict mode every failing check throws at once, and what it
    throws is its own failure, whatever [maxErrors] says; so a chain stops
    at its first failing check.  No error sequence is kept: [getErrors()]
    is empty on the view the session started with and on every view a
    chain returns, before and after the throw. *)
Theorem strict_mode_fails_fast
    (data : value) (opts : option SoftOptions.t) (σ0 : store) :
  opts_soft opts = false →
  ∃ a σ1,
    assertJson data opts σ0 = (Normal a, σ1)
    ∧ ∀ calls r σ2, chain calls a σ1 = (r, σ2) →
        getErrors a σ2 = (Normal [], σ2)
        ∧ ∀ this, r = Normal this →
            soft this = false
            ∧ getErrors this σ2 = (Normal [], σ2)
            ∧ ∀ c err rest, verdict c this = Normal (Some err) →
                run_check c this σ2 = (Throw err, σ2)
                ∧ chain (calls ++ Check c :: rest) a σ1 = (Throw err, σ2)
                ∧ getErrors a σ2 = (Normal [], σ2).
Proof.
  intros Hopts. unfold assertJson. rewrite new_JsonAssertion_eq, Hopts.
  eexists _, _. split; [reflexivity|].
  intros calls r σ2 Hc.
  set (a := mkJsonAssertion data false false (fresh (dom σ0)) None) in *.
  assert (Ha : array_at (<[fresh (dom σ0) := []]> σ0) (errors a) = [])
    by apply array_at_insert_eq.
  destruct (strict_chain _ _ _ _ _ (eq_refl : soft a = false) Ha Hc) as [Heq Hn].
  assert (Hga : getErrors a σ2 = (Normal [], σ2)).
  { unfold getErrors, array_spread. by rewrite Heq, Ha. }
  split; [done|]. intros this ->. destruct (Hn this eq_refl) as [Hs He].
  split; [done|]. split.
  { unfold getErrors, array_spread. by rewrite He. }
  intros c err rest Hv.
  assert (Hr : run_check c this σ2 = (Throw err, σ2)).
  { by rewrite run_check_policy, Hv, handleError_strict. }
  split; [done|]. split; [|done].
  rewrite chain_app, Hc. cbn [chain invoke]. unfold mbind, M_bind. by rewrite Hr.
Qed.

Lemma strict_mode_witness :
  opts_soft None = false
  ∧ ∃ a σ1,
      assertJson doc_foo None ∅ = (Normal a, σ1)
      ∧ chain [Check (ToHaveKey "foo"); Check (ToHaveKey "bar"); Check (ToHaveKey "foo")]
              a σ1
        = (Throw (mkError "Expected key 'bar' to exist"), σ1)
      ∧ getErrors a σ1 = (Normal [], σ1).
Proof.
  split; [reflexivity|].
  destruct (strict_mode_fails_fast doc_foo None ∅ eq_refl) as (a & σ1 & Ha & H).
  exists a, σ1. split; [exact Ha|].
  assert (a = view_strict ∧ σ1 = store_new) as [-> ->].
  { vm_compute in Ha. by injection Ha as <- <-. }
  destruct (H [Check (ToHaveKey "foo")] (Normal view_strict) store_new eq_refl)
    as [Hg Ht].
  destruct (Ht view_strict eq_refl) as (_ & _ & Hc).
  destruct (Hc (ToHaveKey "bar") (mkError "Expected key 'bar' to exist")
              [Check (ToHaveKey "foo")] eq_refl) as (_ & Hch & _).
  split; [exact Hch|exact Hg].
Defined.

(** C6. When the caller's predicate throws inside [toSatisfy], that very
    error leaves [toSatisfy], in strict and in soft mode alike ([this] is
    any view).  It is not turned into an assertion failure and nothing is
    recorded: the store, and with it the soft-mode error array, is as it
    was before the call. *)
Theorem toSatisfy_predicate_fault_propagates
    (this : JsonAssertion) (σ : store) (path : string)
    (predicate : value → completion bool) (value : value) (e : Error) :
  getValueAtPath (target this) path = Normal value →
  predicate value = Throw e →
  toSatisfy this path predicate σ = (Throw e, σ)
  ∧ run_check (ToSatisfy path predicate) this σ = (Throw e, σ)
  ∧ ∀ rest, chain (Check (ToSatisfy path predicate) :: rest) this σ = (Throw e, σ).
Proof.
  intros Hv Hp.
  assert (Hr : toSatisfy this path predicate σ = (Throw e, σ)).
  { unfold toSatisfy, mbind, M_bind, lift. by rewrite Hv, Hp. }
  split; [done|]. split; [done|].
  intros rest. cbn [chain invoke run_check]. unfold mbind, M_bind. by rewrite Hr.
Qed.

Lemma toSatisfy_fault_witness :
  getValueAtPath (target view_soft) "foo" = Normal (VNumber 1)
  ∧ failing_predicate (VNumber 1) = Throw (mkError "predicate failed")
  ∧ toSatisfy view_soft "foo" failing_predicate store_new
    = (Throw (mkError "predicate failed"), store_new)
  ∧ toSatisfy view_strict "foo" failing_predicate store_new
    = (Throw (mkError "predicate failed"), store_new).
Proof.
  split; [reflexivity|]. split; [reflexivity|]. split.
  - exact (proj1 (toSatisfy_predicate_fault_propagates view_soft store_new "foo"
                    failing_predicate (VNumber 1) _ eq_refl eq_refl)).
  - exact (proj1 (toSatisfy_predicate_fault_propagates view_strict store_new "foo"
                    failing_predicate (VNumber 1) _ eq_refl eq_refl)).
Defined.

(** ** Negation *)

Lemma verdict_ext c a b :
  target a = target b → negated a = negated b → verdict c a = verdict c b.
Proof.
  intros Ht Hn. unfold verdict, failure, not_word. rewrite Ht, Hn.
  destruct (getValueAtPath (target b) (check_path c)); [|done].
  destruct (predicate_on c a0); [|done]. do 2 f_equal.
Qed.

Lemma handleError_equiv this err σ1 σ2 :
  store_equiv σ1 σ2 →
  same_outcome (handleError this err σ1) (handleError this err σ2).
Proof.
  intros Heq. unfold handleError. destruct (soft this); [|by split].
  assert (Hpush : store_equiv
            (<[errors this := array_at σ1 (errors this) ++ [err]]> σ1)
            (<[errors this := array_at σ2 (errors this) ++ [err]]> σ2)).
  { intros l. rewrite (Heq (errors this)).
    destruct (decide (errors this = l)) as [<-|Hne].
    - by rewrite !array_at_insert_eq.
    - by rewrite !array_at_insert_ne. }
  unfold_M. rewrite (Heq (errors this)).
  destruct (maxErrors this) as [m|]; [|by split].
  destruct (Z.of_nat (length (array_at σ2 (errors this))) >=? m); by split.
Qed.

(** C7. Double negation is no negation: for every view, store and check,
    [view.not.not.check(..)] and [view.check(..)] have the same outcome. *)
Theorem double_negation_same_outcome
    (this : JsonAssertion) (σ : store) (c : check) :
  same_outcome (chain [Not; Not; Check c] this σ) (chain [Check c] this σ)
  ∧ ∃ n1 σ1 n2 σ2,
      get_not this σ = (Normal n1, σ1) ∧ get_not n1 σ1 = (Normal n2, σ2)
      ∧ negated n1 = negb (negated this)
      ∧ negated n2 = negated this
      ∧ verdict c n2 = verdict c this.
Proof.
  split.
  - cbn [chain invoke]. unfold mbind, M_bind. rewrite !get_not_eq. cbn.
    set (σ1 := <[fresh (dom σ) := []]> σ).
    set (σ2 := <[fresh (dom σ1) := []]> σ1).
    assert (Heq : store_equiv σ2 σ).
    { intros l. unfold σ2, σ1. by rewrite !array_at_fresh. }
    rewrite negb_involutive.
    set (n2 := mkJsonAssertion _ _ _ _ _).
    rewrite !run_check_policy.
    rewrite (verdict_ext c n2 this) by done.
    destruct (verdict c this) as [[err|]|e]; unfold mret, M_ret.
    + destruct (soft this) eqn:Hs.
      * assert (n2 = this) as ->.
        { unfold n2. destruct this as [t n s l m]. cbn in *. subst s. cbn.
          by destruct m. }
        pose proof (handleError_equiv this err _ _ Heq) as [H1 H2].
        destruct (handleError this err σ2) as [[x|ex] τ1],
                 (handleError this err σ) as [[y|ey] τ2]; by split.
      * rewrite !handleError_strict by done. by split.
    + split; [done|]. cbn. by destruct (soft this).
    + by split.
  - rewrite get_not_eq. eexists _, _. rewrite get_not_eq. eexists _, _.
    split; [reflexivity|]. split; [reflexivity|]. cbn.
    split; [done|]. split; [apply negb_involutive|].
    apply verdict_ext; cbn; [done|apply negb_involutive].
Qed.

(** C9. In soft mode the negation modifier returns a view of the same
    session: same document, same mode, same capacity limit and the very
    same error array, with the flag inverted.  A failure recorded through
    the negated view is appended to what the original view reads with
    [getErrors()], after the failures recorded before it, and the other
    way round. *)
Theorem soft_not_shares_session
    (this : JsonAssertion) (σ : store) :
  soft this = true →
  ∃ n σ',
    get_not this σ = (Normal n, σ')
    ∧ target n = target this ∧ soft n = true
    ∧ errors n = errors this ∧ maxErrors n = maxErrors this
    ∧ negated n = negb (negated this)
    ∧ store_equiv σ' σ
    ∧ (∀ τ, getErrors n τ = getErrors this τ)
    ∧ (∀ τ c err, verdict c n = Normal (Some err) → has_capacity n τ →
         ∃ τ', run_check c n τ = (Normal n, τ')
               ∧ getErrors this τ' = (Normal (array_at τ (errors this) ++ [err]), τ'))
    ∧ (∀ τ c err, verdict c this = Normal (Some err) → has_capacity this τ →
         ∃ τ', run_check c this τ = (Normal this, τ')
               ∧ getErrors n τ' = (Normal (array_at τ (errors n) ++ [err]), τ')).
Proof.
  intros Hs. rewrite get_not_eq, Hs. eexists _, _. split; [reflexivity|].
  cbn. repeat (split; [done|]).
  split; [intros l; apply array_at_fresh|].
  split; [done|]. split.
  - intros τ c err Hv Hc. eexists.
    rewrite run_check_policy, Hv, handleError_record by done. cbn.
    split; [reflexivity|]. unfold getErrors, array_spread.
    by rewrite array_at_insert_eq.
  - intros τ c err Hv Hc. eexists.
    rewrite run_check_policy, Hv, handleError_record by done.
    split; [reflexivity|]. unfold getErrors, array_spread. cbn.
    by rewrite array_at_insert_eq.
Qed.

Lemma soft_not_witness :
  soft view_soft = true
  ∧ ∃ n σ',
      get_not view_soft store_new = (Normal n, σ')
      ∧ errors n = errors view_soft ∧ maxErrors n = maxErrors view_soft
      ∧ negated n = true
      ∧ ∃ τ', run_check (ToHaveKey "foo") n σ' = (Normal n, τ')
              ∧ getErrors view_soft τ'
                = (Normal [mkError "Expected key 'foo' not to exist"], τ').
Proof.
  split; [reflexivity|].
  destruct (soft_not_shares_session view_soft store_new eq_refl)
    as (n & σ' & Hn & Ht & Hs & He & Hm & Hneg & Heq & Hg & Hrec & _).
  exists n, σ'. split; [exact Hn|]. split; [exact He|]. split; [exact Hm|].
  split; [exact Hneg|].
  assert (n = set_negated true view_soft
          ∧ σ' = <[1%nat := []]> store_new) as [-> ->].
  { vm_compute in Hn. injection Hn as <- <-. split; reflexivity. }
  destruct (Hrec (<[1%nat := []]> store_new) (ToHaveKey "foo")
              (mkError "Expected key 'foo' not to exist") eq_refl)
    as (τ' & Hr & Hge).
  { cbn. reflexivity. }
  exists τ'. split; [exact Hr|exact Hge].
Defined.

(** ** Equality of values *)

Lemma same_json_refl v : same_json v v = true.
Proof. unfold same_json. by apply bool_decide_eq_true. Qed.

(** C10. When the path resolves to the absent marker, an expected
    [undefined] matches it: on an unnegated view [toMatchValue(path,
    undefined)] passes, with or without options, and [toBeOneOf(path,
    candidates)] passes whenever [undefined] is among the candidates.
    Passing means: the view is returned and nothing is thrown or recorded. *)
Theorem absent_matches_undefined
    (this : JsonAssertion) (σ : store) (path : string) :
  getValueAtPath (target this) path = Normal VUndefined →
  negated this = false →
  same_json VUndefined VUndefined = true
  ∧ (∀ options, toMatchValue this path VUndefined options σ = (Normal this, σ))
  ∧ (∀ candidates, In VUndefined candidates →
       toBeOneOf this path candidates σ = (Normal this, σ)).
Proof.
  intros Hv Hn. split; [apply same_json_refl|]. split.
  - intros options. unfold toMatchValue, mbind, M_bind, lift. rewrite Hv, Hn.
    destruct (opt_caseInsensitive options); cbn; by rewrite same_json_refl.
  - intros candidates Hin. unfold toBeOneOf, mbind, M_bind, lift. rewrite Hv, Hn.
    assert (existsb (fun v => same_json v VUndefined) candidates = true) as ->; [|done].
    apply existsb_exists. exists VUndefined. split; [done|apply same_json_refl].
Qed.

Lemma absent_matches_witness :
  getValueAtPath (target view_strict) "missing" = Normal VUndefined
  ∧ negated view_strict = false
  ∧ toMatchValue view_strict "missing" VUndefined None store_new
    = (Normal view_strict, store_new)
  ∧ toBeOneOf view_strict "missing" [VNull; VUndefined] store_new
    = (Normal view_strict, store_new).
Proof.
  split; [reflexivity|]. split; [reflexivity|].
  destruct (absent_matches_undefined view_strict store_new "missing" eq_refl eq_refl)
    as (_ & Hm & Ho).
  split; [exact (Hm None)|]. apply Ho. right. left. reflexivity.
Defined.

(** ** Where the code departs from its documentation *)

(** C1. The getter [not] is documented as negating the next assertion
    only.  In the code a check returns [this], which still carries the
    flag, so the check chained after [a.not.toHaveKey(p)] runs negated:
    on [{foo: 1}], [.not.toHaveKey("bar").toHaveKey("foo")] throws
    "not to exist" although the key exists, and the chain of the README
    with two [.not] throws at its last check. *)
Theorem negation_flag_survives_the_check :
  (∀ this σ c,
     match chain [Not; Check c] this σ with
     | (Normal next, _) => negated next = negb (negated this)
     | (Throw _, _) => True
     end)
  ∧ fst ((a ← assertJson doc_foo None;
          chain [Not; Check (ToHaveKey "bar"); Check (ToHaveKey "foo")] a) ∅)
    = Throw (mkError "Expected key 'foo' not to exist")
  ∧ fst ((a ← assertJson doc_score None;
          chain [Check (ToBeGreaterThan "score" 10); Check (ToBeLessThan "score" 100);
                 Not; Check (ToBeGreaterThan "score" 100);
                 Not; Check (ToBeLessThan "score" 10)] a) ∅)
    = Throw (mkError "Expected value at 'score' to be less than 10, but got 42").
Proof.
  split; [|split; vm_compute; reflexivity].
  intros this σ c. cbn [chain invoke]. unfold mbind, M_bind.
  rewrite get_not_eq, run_check_policy.
  set (n := mkJsonAssertion _ _ _ _ _).
  destruct (verdict c n) as [[err|]|e]; [|done..].
  unfold handleError. destruct (soft n); [|done]. unfold_M.
  destruct (maxErrors n) as [m|]; [|done].
  by destruct (Z.of_nat (length (array_at _ (errors n))) >=? m).
Qed.


(** C2. [toMatchValue] is documented as deep equality, but it compares
    the JSON texts of the two values.  [{a: 1, b: 2}] and [{b: 2, a: 1}]
    hold the same key-value pairs and are deep-equal, yet their texts
    differ and [toMatchValue] fails on them; [[undefined]] and [[null]]
    are not deep-equal, yet their texts agree and [toMatchValue] passes. *)
Theorem toMatchValue_is_key_order_sensitive :
  deep_equal obj_ab obj_ba = true
  ∧ getValueAtPath doc_o "o" = Normal obj_ab
  ∧ same_json obj_ab obj_ba = false
  ∧ (∃ e, fst ((a ← assertJson doc_o None; toMatchValue a "o" obj_ba None) ∅) = Throw e
          ∧ message e = "Expected value at 'o' to equal " +:+ show_json obj_ba +:+
                        ", but got " +:+ show_json obj_ab)
  ∧ deep_equal (VArray [VUndefined]) (VArray [VNull]) = false
  ∧ ∃ a σ, (a ← assertJson (VObject [("l", VArray [VUndefined])]) None;
            toMatchValue a "l" (VArray [VNull]) None) ∅ = (Normal a, σ).
Proof.
  repeat split; try (vm_compute; reflexivity).
  - eexists. split; vm_compute; reflexivity.
  - eexists _, _. vm_compute. reflexivity.
Qed.

(** ** The scenarios of the specification, run on the code *)

Example scenario_strict_chain_passes :
  ∃ a σ, (a ← assertJson doc_user None;
          chain [Check (ToHaveKey "user.name"); Check (ToBeType "user.age" TNumber);
                 Not; Check (ToHaveKey "user.password")] a) ∅ = (Normal a, σ).
Proof. eexists _, _. vm_compute. reflexivity. Qed.

Example scenario_array_indexing :
  fst ((a ← assertJson doc_arr None;
        chain [Check (ToHaveKey "arr[1].id"); Check (ToMatchValue "arr[0].id" (VNumber 1) None);
               Check (ToHaveKey "arr[2].id")] a) ∅)
  = Throw (mkError "Expected key 'arr[2].id' to exist").
Proof. vm_compute. reflexivity. Qed.

Example scenario_soft_collects :
  (a ← assertJson doc_foo (Some (SoftOptions.mk (Some true) None));
   _ ← chain [Check (ToBeType "foo" TString); Check (ToMatchValue "foo" (VNumber 2) None)] a;
   getErrors a) ∅
  = (Normal [mkError "Expected 'foo' to be type 'string', but got 'number'";
             mkError "Expected value at 'foo' to equal 2, but got 1"],
     {[ 0%nat := [mkError "Expected 'foo' to be type 'string', but got 'number'";
                  mkError "Expected value at 'foo' to equal 2, but got 1"] ]}).
Proof. vm_compute. reflexivity. Qed.

Example scenario_case_insensitive :
  let doc := VObject [("greeting", VString "Hello World")] in
  (∃ e, fst ((a ← assertJson doc None;
              toMatchValue a "greeting" (VString "hello world") None) ∅) = Throw e)
  ∧ ∃ a σ, (a ← assertJson doc None;
            toMatchValue a "greeting" (VString "hello world")
              (Some {| caseInsensitive := Some true |})) ∅ = (Normal a, σ).
Proof.
  split; [eexists|eexists _, _]; vm_compute; reflexivity.
Qed.

Example scenario_capacity :
  ∃ a σ,
    (a ← assertJson doc_roles (Some (SoftOptions.mk (Some true) (Some 2)));
     chain [Check (ToBeType "user.name" TString);
            Check (ToBeType "user.active" TBoolean)] a) ∅ = (Normal a, σ)
    ∧ toBeTruthy a "user.role" σ = (Throw (mkError (capacity_message 2)), σ)
    ∧ length (array_at σ (errors a)) = 2%nat.
Proof. eexists _, _. repeat split; vm_compute; reflexivity. Qed.

(* ===================================================================== *)
(** * Further properties of the code                                      *)
(* ===================================================================== *)

(** ** The resolver, step by step *)






Lemma replace_indices_dot_any post :
  replace_indices (String "."%char post) = String "."%char (replace_indices post).
Proof. by rewrite replace_indices_cons. Qed.

Lemma walk_dot doc p q :
  fold_left step (split "."%char (replace_indices (p +:+ "." +:+ q))) doc
  = fold_left step (split "."%char (replace_indices q))
      (fold_left step (split "."%char (replace_indices p)) doc).
Proof.
  change ("." +:+ q) with (String "."%char q).
  rewrite replace_indices_app_block by done.
  by rewrite replace_indices_dot_any, split_app_sep, fold_left_app.
Qed.

(** X2. Resolution composes at a dot: [p.q] resolves [q] from what [p]
    resolves to, for every document and all [p] and [q], empty or
    malformed ones included. *)
Theorem getValueAtPath_dot_composes (doc : value) (p q : string) :
  getValueAtPath doc (p +:+ "." +:+ q)
  = match getValueAtPath doc p with
    | Normal v => getValueAtPath v q
    | Throw e => Throw e
    end.
Proof.
  rewrite (getValueAtPath_walk doc p). cbn match. rewrite !getValueAtPath_walk.
  f_equal. apply walk_dot.
Qed.

Lemma walk_undefined keys : fold_left step keys VUndefined = VUndefined.
Proof. induction keys as [|k keys IH]; [done|]. apply IH. Qed.



(** ** Array indices *)

Lemma to_uint_nonnil n : Nat.to_uint n ≠ Nil.
Proof.
  intros H. pose proof (DecimalNat.Unsigned.of_to n) as Hn. rewrite H in Hn.
  cbn in Hn. subst n. discriminate H.
Qed.

Lemma all_digits_uint d : all_digits (NilEmpty.string_of_uint d) = true.
Proof. induction d; cbn; auto. Qed.

Lemma string_of_nat_digits n : all_digits (string_of_nat n) = true.
Proof.
  unfold string_of_nat, NilZero.string_of_uint.
  destruct (Nat.to_uint n) eqn:E; try (rewrite <- E; clear E); try done;
    rewrite ?E; apply (all_digits_uint (_ _)).
Qed.

Lemma string_of_nat_nonempty n : string_of_nat n ≠ EmptyString.
Proof.
  unfold string_of_nat, NilZero.string_of_uint.
  destruct (Nat.to_uint n) eqn:E; cbn; try done.
Qed.

(** The numeral of [i] is the key of the element at index [i]. *)
Lemma array_index_canonical i : array_index (string_of_nat i) = Some i.
Proof.
  unfold array_index, string_of_nat.
  rewrite NilZero.usu by apply to_uint_nonnil.
  rewrite DecimalNat.Unsigned.of_to. by rewrite String.eqb_refl.
Qed.

(** An own property named by a run of digits is not [length]. *)
Lemma digits_not_length ds : all_digits ds = true → String.eqb ds "length" = false.
Proof.
  intros H. destruct (String.eqb_spec ds "length") as [->|]; [discriminate|done].
Qed.

Lemma walk_bracket_end doc pre ds :
  ds ≠ EmptyString → all_digits ds = true →
  getValueAtPath doc (pre +:+ "[" +:+ ds +:+ "]")
  = match getValueAtPath doc pre with
    | Normal v => optional_member v ds
    | Throw e => Throw e
    end.
Proof.
  intros Hne Hds. rewrite (getValueAtPath_walk doc pre). cbn match.
  rewrite getValueAtPath_walk, optional_member_step.
  change ("[" +:+ ds +:+ "]") with (String "["%char (ds +:+ String "]"%char EmptyString)).
  rewrite replace_indices_app_block by done.
  rewrite replace_indices_bracket by done.
  rewrite replace_indices_equation_1, str_app_nil_r.
  by rewrite split_app_sep, (split_digits ds), fold_left_app.
Qed.

(** X4. Indexing an array: when [pre] resolves to an array, [pre[i]] resolves
    to its element at index [i], and to [undefined] when [i] is out of
    range; the empty array has no element at all. *)
Theorem getValueAtPath_array_index
    (doc : value) (pre : string) (elems : list value) (i : nat) :
  getValueAtPath doc pre = Normal (VArray elems) →
  getValueAtPath doc (pre +:+ "[" +:+ string_of_nat i +:+ "]")
  = Normal (default VUndefined (elems !! i))
  ∧ ((length elems ≤ i)%nat →
     getValueAtPath doc (pre +:+ "[" +:+ string_of_nat i +:+ "]") = Normal VUndefined)
  ∧ (∀ x, elems !! i = Some x →
     getValueAtPath doc (pre +:+ "[" +:+ string_of_nat i +:+ "]") = Normal x).
Proof.
  intros Hp.
  assert (H : getValueAtPath doc (pre +:+ "[" +:+ string_of_nat i +:+ "]")
              = Normal (default VUndefined (elems !! i))).
  { rewrite walk_bracket_end, Hp
      by (apply string_of_nat_nonempty || apply string_of_nat_digits).
    rewrite optional_member_step. unfold step. cbn.
    by rewrite array_index_canonical. }
  split; [done|]. split.
  - intros Hle. rewrite H. by rewrite (lookup_ge_None_2 elems i).
  - intros x Hx. by rewrite H, Hx.
Qed.

Lemma getValueAtPath_array_index_witness :
  getValueAtPath doc_arr "arr"
  = Normal (VArray [VObject [("id", VNumber 1)]; VObject [("id", VNumber 2)]])
  ∧ getValueAtPath doc_arr "arr[1]" = Normal (VObject [("id", VNumber 2)])
  ∧ getValueAtPath doc_arr "arr[2]" = Normal VUndefined.
Proof.
  split; [reflexivity|].
  destruct (getValueAtPath_array_index doc_arr "arr" _ 1 eq_refl) as (_ & _ & H1).
  destruct (getValueAtPath_array_index doc_arr "arr" _ 2 eq_refl) as (_ & H2 & _).
  split; [exact (H1 _ eq_refl)|]. apply H2. cbn. lia.
Defined.

(** The numeral of a number has no leading zero, unless it is ["0"]. *)
Lemma nzhead_not_D0 d u : Decimal.nzhead d ≠ D0 u.
Proof. induction d; cbn; try done. Qed.

Lemma string_of_nat_no_leading_zero n t :
  string_of_nat n = String "0"%char t → t = EmptyString.
Proof.
  unfold string_of_nat. intros H.
  pose proof (DecimalNat.Unsigned.to_of (Nat.to_uint n)) as Hn.
  rewrite DecimalNat.Unsigned.of_to in Hn.
  destruct (Nat.to_uint n) as [|d| | | | | | | | |] eqn:E; cbn in H; try discriminate H.
  { by apply to_uint_nonnil in E. }
  injection H as <-. unfold Decimal.unorm in Hn. cbn [Decimal.nzhead] in Hn.
  destruct (Decimal.nzhead d) eqn:Hz; try discriminate Hn.
  - by injection Hn as ->.
  - by apply nzhead_not_D0 in Hz.
Qed.

Lemma array_index_leading_zero ds :
  ds ≠ EmptyString → array_index (String "0"%char ds) = None.
Proof.
  intros Hne. unfold array_index.
  destruct (NilZero.uint_of_string (String "0"%char ds)) as [u|]; [|done].
  destruct (String.eqb_spec (string_of_nat (Nat.of_uint u)) (String "0"%char ds))
    as [E|]; [|done].
  by apply string_of_nat_no_leading_zero in E.
Qed.

(** X5. An index written with a leading zero names no element: when [pre]
    resolves to an array, [pre[0N]] resolves to [undefined] even where
    the array has an element at index [N]. *)
Theorem getValueAtPath_padded_index
    (doc : value) (pre ds : string) (elems : list value) :
  ds ≠ EmptyString → all_digits ds = true →
  getValueAtPath doc pre = Normal (VArray elems) →
  getValueAtPath doc (pre +:+ "[0" +:+ ds +:+ "]") = Normal VUndefined.
Proof.
  intros Hne Hds Hp.
  change ("[0" +:+ ds +:+ "]") with ("[" +:+ String "0"%char ds +:+ "]").
  rewrite walk_bracket_end, Hp by done.
  rewrite optional_member_step. unfold step. cbn [is_nullish get_own].
  rewrite array_index_leading_zero by done.
  by rewrite (digits_not_length (String "0"%char ds)).
Qed.

Lemma getValueAtPath_padded_index_witness :
  "1" ≠ EmptyString ∧ all_digits "1" = true
  ∧ getValueAtPath doc_arr "arr[1]" = Normal (VObject [("id", VNumber 2)])
  ∧ getValueAtPath doc_arr "arr[01]" = Normal VUndefined.
Proof.
  assert (H1 : "1" ≠ EmptyString) by discriminate.
  split; [exact H1|]. split; [reflexivity|]. split; [reflexivity|].
  exact (getValueAtPath_padded_index doc_arr "arr" "1" _ H1 eq_refl eq_refl).
Defined.

(** X6. A path that starts with a bracketed index first reads the property
    with the empty name: on an array, and on an object without such a
    property, it resolves to [undefined] whatever follows. *)
Theorem getValueAtPath_leading_bracket (doc : value) (ds post : string) :
  ds ≠ EmptyString → all_digits ds = true →
  optional_member doc EmptyString = Normal VUndefined →
  getValueAtPath doc ("[" +:+ ds +:+ "]" +:+ post) = Normal VUndefined.
Proof.
  intros Hne Hds He. rewrite optional_member_step in He. injection He as He.
  rewrite getValueAtPath_walk.
  change ("[" +:+ ds +:+ "]" +:+ post) with (String "["%char (ds +:+ String "]"%char post)).
  rewrite replace_indices_bracket by done. cbn [split Ascii.eqb].
  cbn. rewrite He. by rewrite walk_undefined.
Qed.

Lemma getValueAtPath_leading_bracket_witness :
  "0" ≠ EmptyString ∧ all_digits "0" = true
  ∧ optional_member (VArray [VNumber 7; VNumber 8]) EmptyString = Normal VUndefined
  ∧ getValueAtPath (VArray [VNumber 7; VNumber 8]) "[0]" = Normal VUndefined
  ∧ getValueAtPath (VObject [("list", VArray [VNumber 7; VNumber 8])]) "list[0]"
    = Normal (VNumber 7).
Proof.
  assert (H0 : "0" ≠ EmptyString) by discriminate.
  split; [exact H0|]. split; [reflexivity|]. split; [reflexivity|].
  split; [|reflexivity].
  exact (getValueAtPath_leading_bracket (VArray [VNumber 7; VNumber 8]) "0" EmptyString
           H0 eq_refl eq_refl).
Defined.

(** ** Views along a chain *)

Lemma run_check_returns_receiver c this σ r σ' :
  run_check c this σ = (Normal r, σ') → r = this.
Proof.
  rewrite run_check_policy. destruct (verdict c this) as [[err|]|e].
  - unfold handleError. destruct (soft this); [|done]. unfold_M.
    destruct (maxErrors this) as [m|]; [|by intros [= <- _]].
    destruct (Z.of_nat (length (array_at σ (errors this))) >=? m);
      [done|by intros [= <- _]].
  - by intros [= <- _].
  - done.
Qed.

(** X8. What a chain returns is a view of the same document in the same
    mode; its negation flag is the receiver's, inverted once per [not]
    in the chain, so a check passes the flag on to the calls after it.
    In soft mode the view also keeps the error array and the limit. *)
Theorem chain_preserves_session
    (calls : list call) (this : JsonAssertion) (σ : store) :
  match chain calls this σ with
  | (Normal r, _) =>
      target r = target this ∧ soft r = soft this
      ∧ negated r = flag_after calls (negated this)
      ∧ (soft this = true → errors r = errors this ∧ maxErrors r = maxErrors this)
  | (Throw _, _) => True
  end.
Proof.
  revert this σ. induction calls as [|c calls IH]; intros this σ.
  - cbn. by repeat split.
  - cbn [chain]. unfold mbind, M_bind.
    destruct (invoke c this σ) as [[next|e] σ1] eqn:Hi; [|done].
    specialize (IH next σ1).
    destruct (chain calls next σ1) as [[r|e] σ2]; [|done].
    destruct IH as (Ht & Hs & Hn & He).
    destruct c as [|c]; cbn [invoke flag_after] in *.
    + rewrite get_not_eq in Hi. injection Hi as <- <-. cbn in *.
      split; [done|]. split; [done|]. split; [done|].
      intros Hsoft. rewrite Hsoft in *. destruct (He eq_refl) as [-> ->].
      done.
    + apply run_check_returns_receiver in Hi as ->. auto.
Qed.

(** ** What a chain does to the store *)

(** One call either leaves every array as it reads, or appends one error
    to the receiver's array, which happens only in soft mode with room
    left. *)
Lemma invoke_effect (c : call) this σ :
  store_equiv (snd (invoke c this σ)) σ
  ∨ (soft this = true ∧ has_capacity this σ
     ∧ ∃ err, invoke c this σ
              = (Normal this, <[errors this := array_at σ (errors this) ++ [err]]> σ)).
Proof.
  destruct c as [|c]; cbn [invoke].
  - left. rewrite get_not_eq. intros l. apply array_at_fresh.
  - rewrite run_check_policy. destruct (verdict c this) as [[err|]|e]; [|by left..].
    unfold handleError, has_capacity. destruct (soft this); [|by left]. unfold_M.
    destruct (maxErrors this) as [m|].
    + destruct (Z.of_nat (length (array_at σ (errors this))) >=? m) eqn:Hm; [by left|].
      right. rewrite Z.geb_leb in Hm. apply Z.leb_gt in Hm. eauto.
    + right. eauto.
Qed.

Lemma invoke_next_view (c : call) this σ next σ' :
  invoke c this σ = (Normal next, σ') →
  soft next = soft this
  ∧ (soft this = true → errors next = errors this ∧ maxErrors next = maxErrors this).
Proof.
  destruct c as [|c]; cbn [invoke].
  - rewrite get_not_eq. intros [= <- _]. cbn. split; [done|]. by intros ->.
  - intros ->%run_check_returns_receiver. auto.
Qed.

Lemma chain_cons c calls this σ :
  chain (c :: calls) this σ =
  match invoke c this σ with
  | (Normal next, σ') => chain calls next σ'
  | (Throw e, σ') => (Throw e, σ')
  end.
Proof. reflexivity. Qed.

(** X9. Recorded failures are never removed, changed or reordered: whatever
    a chain does, on whatever view, each array of errors afterwards
    starts with what it held before. *)
Theorem chain_errors_append_only
    (calls : list call) (this : JsonAssertion) (σ : store) (l : loc) :
  array_at σ l `prefix_of` array_at (snd (chain calls this σ)) l.
Proof.
  revert this σ. induction calls as [|c calls IH]; intros this σ; [done|].
  rewrite chain_cons.
  assert (Hstep : array_at σ l `prefix_of` array_at (snd (invoke c this σ)) l).
  { destruct (invoke_effect c this σ) as [Heq|(_ & _ & err & ->)].
    - by rewrite Heq.
    - cbn. destruct (decide (errors this = l)) as [<-|Hne].
      + rewrite array_at_insert_eq. by apply prefix_app_r.
      + by rewrite array_at_insert_ne. }
  destruct (invoke c this σ) as [[next|e] σ1]; [|done].
  etrans; [exact Hstep|apply IH].
Qed.

Lemma chain_frame_gen (calls : list call) (cur : JsonAssertion) (σ : store) (l0 l : loc) :
  (soft cur = true → errors cur = l0) → l ≠ l0 →
  array_at (snd (chain calls cur σ)) l = array_at σ l.
Proof.
  revert cur σ. induction calls as [|c calls IH]; intros cur σ Hcur Hl; [done|].
  rewrite chain_cons.
  assert (Hstep : array_at (snd (invoke c cur σ)) l = array_at σ l).
  { destruct (invoke_effect c cur σ) as [Heq|(Hs & _ & err & ->)]; [done|].
    cbn. apply array_at_insert_ne. rewrite (Hcur Hs). congruence. }
  destruct (invoke c cur σ) as [[next|e] σ1] eqn:Hi; [|done].
  destruct (invoke_next_view _ _ _ _ _ Hi) as [Hs He].
  cbn in Hstep. rewrite <- Hstep. apply IH; [|done].
  intros Hn. rewrite Hs in Hn. destruct (He Hn) as [-> _]. auto.
Qed.

(** X10. Sessions do not see each other: two sessions opened one after the
    other hold different error arrays, and whatever chain runs in one of
    them, the other still reads no failure. *)
Theorem sessions_are_independent
    (data1 data2 : value) (opts1 opts2 : option SoftOptions.t) (σ : store) :
  ∃ a σ1 b σ2,
    assertJson data1 opts1 σ = (Normal a, σ1)
    ∧ assertJson data2 opts2 σ1 = (Normal b, σ2)
    ∧ errors a ≠ errors b
    ∧ ∀ calls,
        getErrors b (snd (chain calls a σ2))  = (Normal [], snd (chain calls a σ2))
        ∧ getErrors a (snd (chain calls b σ2)) = (Normal [], snd (chain calls b σ2)).
Proof.
  unfold assertJson. rewrite new_JsonAssertion_eq. eexists _, _.
  rewrite new_JsonAssertion_eq. eexists _, _.
  split; [reflexivity|]. split; [reflexivity|].
  set (l1 := fresh (dom σ)). set (σ1 := <[l1 := []]> σ).
  set (l2 := fresh (dom σ1)). set (σ2 := <[l2 := []]> σ1).
  set (a := mkJsonAssertion data1 _ _ _ _). set (b := mkJsonAssertion data2 _ _ _ _).
  assert (Hea : errors a = l1) by (unfold a; cbn; by destruct (opts_soft opts1)).
  assert (Heb : errors b = l2) by (unfold b; cbn; by destruct (opts_soft opts2)).
  assert (Hne : l1 ≠ l2).
  { intros E. pose proof (is_fresh (dom σ1)) as Hf. fold l2 in Hf. rewrite <- E in Hf.
    apply Hf. unfold σ1. rewrite dom_insert_L. set_solver. }
  assert (H1 : array_at σ2 l1 = []).
  { unfold σ2. rewrite array_at_insert_ne by done. apply array_at_insert_eq. }
  assert (H2 : array_at σ2 l2 = []) by apply array_at_insert_eq.
  split; [congruence|]. intros calls. unfold getErrors, array_spread. split.
  - rewrite Heb, (chain_frame_gen calls a σ2 l1 l2), H2; auto.
  - rewrite Hea, (chain_frame_gen calls b σ2 l2 l1), H1; auto.
Qed.

Lemma chain_capacity_gen (calls : list call) (cur : JsonAssertion) (σ : store) (N : Z) :
  soft cur = true → maxErrors cur = Some N →
  Z.of_nat (length (array_at (snd (chain calls cur σ)) (errors cur)))
  ≤ Z.max N (Z.of_nat (length (array_at σ (errors cur)))).
Proof.
  revert cur σ. induction calls as [|c calls IH]; intros cur σ Hs Hm; [cbn; lia|].
  rewrite chain_cons.
  assert (Hstep : Z.of_nat (length (array_at (snd (invoke c cur σ)) (errors cur)))
                  ≤ Z.max N (Z.of_nat (length (array_at σ (errors cur))))).
  { destruct (invoke_effect c cur σ) as [Heq|(_ & Hc & err & ->)].
    - rewrite Heq. lia.
    - cbn. rewrite array_at_insert_eq, length_app. cbn.
      unfold has_capacity in Hc. rewrite Hm in Hc. lia. }
  destruct (invoke c cur σ) as [[next|e] σ1] eqn:Hi; [|done].
  destruct (invoke_next_view _ _ _ _ _ Hi) as [Hs' He].
  destruct (He Hs) as [Hl Hm'].
  cbn in Hstep. rewrite <- Hl.
  etrans; [apply IH; congruence|]. rewrite Hl. lia.
Qed.

(** X11. A soft session opened with [maxErrors = N] never holds more than [N]
    failures, whatever is called on it and however the calls end. *)
Theorem soft_session_never_exceeds_maxErrors
    (data : value) (N : Z) (σ0 : store) :
  ∃ a σ1,
    assertJsonSoft data (Some (SoftOptions.mk None (Some N))) σ0 = (Normal a, σ1)
    ∧ get_isSoft a = true
    ∧ ∀ calls,
        Z.of_nat (length (array_at (snd (chain calls a σ1)) (errors a))) ≤ Z.max N 0.
Proof.
  unfold assertJsonSoft. rewrite new_JsonAssertion_eq. eexists _, _.
  split; [reflexivity|]. cbn. split; [done|]. intros calls.
  set (a := mkJsonAssertion _ _ _ _ _).
  pose proof (chain_capacity_gen calls a (<[fresh (dom σ0) := []]> σ0) N eq_refl eq_refl)
    as H.
  cbn in H. by rewrite array_at_insert_eq in H.
Qed.

Lemma verdict_faultless c this : faultless c → ∃ o, verdict c this = Normal o.
Proof.
  intros Hc. unfold verdict. rewrite getValueAtPath_walk.
  set (v := fold_left _ _ _).
  destruct c; cbn [predicate_on]; try by eexists.
  cbn in Hc. destruct (Hc v) as [b ->]. by eexists.
Qed.

(** X12. In soft mode, while there is room, a chain whose predicates do not
    throw runs to its end, and afterwards the session holds what it held
    before followed by the failures of the failing checks, in the order
    of the calls. *)
Theorem soft_chain_records_failures_in_order
    (calls : list call) (this : JsonAssertion) (σ : store) :
  soft this = true →
  Forall faultless_call calls →
  room_for (length (failures_of calls this)) this σ →
  ∃ r σ',
    chain calls this σ = (Normal r, σ')
    ∧ getErrors this σ'
      = (Normal (array_at σ (errors this) ++ failures_of calls this), σ').
Proof.
  revert this σ. induction calls as [|c calls IH]; intros this σ Hs Hf Hroom.
  - eexists _, _. split; [reflexivity|]. unfold getErrors, array_spread. cbn.
    by rewrite app_nil_r.
  - apply Forall_cons in Hf as [Hc Hf]. rewrite chain_cons.
    destruct c as [|c]; cbn [invoke failures_of] in *.
    + rewrite get_not_eq, Hs.
      set (next := mkJsonAssertion _ _ _ _ _).
      assert (Hnext : next = set_negated (negb (negated this)) this).
      { unfold next, set_negated. by rewrite Hs. }
      rewrite <- Hnext in Hroom.
      destruct (IH next (<[fresh (dom σ) := []]> σ)) as (r & σ' & Hr & Hg); try done.
      { unfold room_for in *. cbn. by rewrite array_at_fresh. }
      exists r, σ'. split; [done|]. revert Hg. unfold getErrors, array_spread.
      cbn. rewrite array_at_fresh. by rewrite Hnext.
    + rewrite run_check_policy.
      destruct (verdict_faultless c this Hc) as [[err|] Hv]; rewrite Hv in *.
      * cbn [length] in Hroom.
        assert (Hcap : has_capacity this σ).
        { unfold has_capacity, room_for in *. destruct (maxErrors this); [lia|done]. }
        rewrite handleError_record by done.
        destruct (IH this (<[errors this := array_at σ (errors this) ++ [err]]> σ))
          as (r & σ' & Hr & Hg); try done.
        { unfold room_for in *. destruct (maxErrors this); [|done].
          rewrite array_at_insert_eq, length_app. cbn. lia. }
        exists r, σ'. split; [done|]. rewrite Hg, array_at_insert_eq.
        by rewrite <- app_assoc.
      * by apply IH.
Qed.

Lemma soft_chain_records_witness :
  soft view_soft = true
  ∧ Forall faultless_call [Check (ToHaveKey "bar"); Not; Check (ToHaveKey "foo")]
  ∧ room_for 2 (set_maxErrors (Some 2) view_soft) store_new
  ∧ ∃ r σ',
      chain [Check (ToHaveKey "bar"); Not; Check (ToHaveKey "foo")]
            (set_maxErrors (Some 2) view_soft) store_new = (Normal r, σ')
      ∧ getErrors view_soft σ'
        = (Normal [mkError "Expected key 'bar' to exist";
                   mkError "Expected key 'foo' not to exist"], σ').
Proof.
  assert (Hf : Forall faultless_call
                 [Check (ToHaveKey "bar"); Not; Check (ToHaveKey "foo")]).
  { repeat constructor. }
  assert (Hr : room_for 2 (set_maxErrors (Some 2) view_soft) store_new).
  { unfold room_for. cbn. reflexivity || (vm_compute; discriminate). }
  split; [reflexivity|]. split; [exact Hf|]. split; [exact Hr|].
  destruct (soft_chain_records_failures_in_order
              [Check (ToHaveKey "bar"); Not; Check (ToHaveKey "foo")]
              (set_maxErrors (Some 2) view_soft) store_new eq_refl Hf Hr)
    as (r & σ' & Hc & Hg).
  exists r, σ'. split; [exact Hc|exact Hg].
Defined.

(** ** Negation as complement *)

(** X14. In strict mode [.not] turns the outcome of a check round: a check
    whose predicate does not throw returns on a view exactly when it
    throws on [view.not], and throws exactly when it returns there. *)
Theorem strict_not_is_complement
    (c : check) (this : JsonAssertion) (σ : store) :
  soft this = false → faultless c →
  (returns (chain [Check c] this σ) ↔ throws (chain [Not; Check c] this σ))
  ∧ (throws (chain [Check c] this σ) ↔ returns (chain [Not; Check c] this σ)).
Proof.
  intros Hs Hc. cbn [chain invoke]. unfold mbind, M_bind.
  rewrite get_not_eq, Hs, !run_check_policy.
  set (n := mkJsonAssertion _ _ _ _ _).
  unfold verdict. cbn [target negated check_path n].
  change (target n) with (target this). change (negated n) with (negb (negated this)).
  rewrite getValueAtPath_walk. set (v := fold_left _ _ _).
  assert (Hp : ∃ b, predicate_on c v = Normal b).
  { destruct c; cbn [predicate_on]; try by eexists. apply Hc. }
  destruct Hp as [b ->].
  unfold returns, throws, mret, M_ret.
  destruct b, (negated this); cbn; rewrite ?handleError_strict by done;
    cbn; split; split; intros [x Hx]; try discriminate Hx; eauto.
Qed.

Lemma strict_not_is_complement_witness :
  soft view_strict = false ∧ faultless (ToHaveKey "foo")
  ∧ returns (chain [Check (ToHaveKey "foo")] view_strict store_new)
  ∧ throws (chain [Not; Check (ToHaveKey "foo")] view_strict store_new).
Proof.
  split; [reflexivity|]. split; [exact I|].
  assert (Hr : returns (chain [Check (ToHaveKey "foo")] view_strict store_new)).
  { eexists. reflexivity. }
  split; [exact Hr|].
  exact (proj1 (proj1 (strict_not_is_complement (ToHaveKey "foo") view_strict store_new
                         eq_refl I)) Hr).
Defined.

(** ** Checks that answer the same question *)

Lemma strict_passes_iff c this σ :
  soft this = false →
  (run_check c this σ = (Normal this, σ) ↔ verdict c this = Normal None)
  ∧ ((∃ e, run_check c this σ = (Throw e, σ)) ↔ verdict c this ≠ Normal None).
Proof.
  intros Hs. rewrite run_check_policy.
  destruct (verdict c this) as [[err|]|e]; rewrite ?handleError_strict by done;
    split; split; try done; eauto.
  all: intros [x Hx]; discriminate Hx.
Qed.

Ltac strict_verdicts Hs :=
  repeat match goal with
  | |- context [?m ?this ?p ?σ = (Normal ?this, ?σ)] =>
      lazymatch m with
      | toHaveKey => rewrite (proj1 (strict_passes_iff (ToHaveKey p) this σ Hs))
      | toBeDefined => rewrite (proj1 (strict_passes_iff (ToBeDefined p) this σ Hs))
      | toBeNull => rewrite (proj1 (strict_passes_iff (ToBeNull p) this σ Hs))
      | toBeTruthy => rewrite (proj1 (strict_passes_iff (ToBeTruthy p) this σ Hs))
      | toBeFalsy => rewrite (proj1 (strict_passes_iff (ToBeFalsy p) this σ Hs))
      end
  | |- context [toBeType ?this ?p ?t ?σ = (Normal ?this, ?σ)] =>
      rewrite (proj1 (strict_passes_iff (ToBeType p t) this σ Hs))
  end.

(** X15. Several checks ask the same question of the resolved value.  On an
    unnegated strict view: [toBeDefined] passes exactly when [toHaveKey]
    does, and exactly when [toBeType(path, "undefined")] does not, so a
    key that holds [undefined] counts as missing; [toBeNull] passes
    exactly when [toBeType(path, "null")] does; [toBeFalsy] passes
    exactly when [toBeTruthy] does not. *)
Theorem sibling_checks_agree (this : JsonAssertion) (σ : store) (path : string) :
  soft this = false → negated this = false →
  (toBeDefined this path σ = (Normal this, σ) ↔ toHaveKey this path σ = (Normal this, σ))
  ∧ (toHaveKey this path σ = (Normal this, σ)
     ↔ toBeType this path TUndefined σ ≠ (Normal this, σ))
  ∧ (toBeNull this path σ = (Normal this, σ)
     ↔ toBeType this path TNull σ = (Normal this, σ))
  ∧ (toBeFalsy this path σ = (Normal this, σ)
     ↔ toBeTruthy this path σ ≠ (Normal this, σ)).
Proof.
  intros Hs Hn. strict_verdicts Hs.
  unfold verdict. cbn [check_path predicate_on]. rewrite Hn, getValueAtPath_walk.
  set (v := fold_left _ _ _).
  repeat split; destruct v as [| |[]|n|s|l|ps]; cbn; try done;
    try (intros H; by (discriminate H || exfalso; apply H)).
  all: try (destruct (n =? 0); cbn; try done;
            intros H; by (discriminate H || exfalso; apply H)).
  all: try (destruct (String.eqb s EmptyString); cbn; try done;
            intros H; by (discriminate H || exfalso; apply H)).
Qed.

Lemma sibling_checks_agree_witness :
  soft view_strict = false ∧ negated view_strict = false
  ∧ toBeDefined view_strict "foo" store_new = (Normal view_strict, store_new)
  ∧ toHaveKey view_strict "foo" store_new = (Normal view_strict, store_new)
  ∧ toBeType view_strict "foo" TUndefined store_new ≠ (Normal view_strict, store_new).
Proof.
  split; [reflexivity|]. split; [reflexivity|].
  destruct (sibling_checks_agree view_strict store_new "foo" eq_refl eq_refl)
    as (H1 & H2 & _).
  assert (Hk : toHaveKey view_strict "foo" store_new = (Normal view_strict, store_new))
    by reflexivity.
  split; [exact (proj2 H1 Hk)|]. split; [exact Hk|exact (proj1 H2 Hk)].
Defined.



(** ** Numeric comparisons *)

(** X17. The numeric checks do not coerce: when the path resolves to anything
    but a number (a numeric string, [null], a missing path), both
    [toBeGreaterThan] and [toBeLessThan] fail for every bound, and their
    negated forms pass.  On a number at most one of the two passes. *)
Theorem numeric_checks_do_not_coerce
    (this : JsonAssertion) (σ : store) (path : string) (v : value) (num : Z) :
  soft this = false → negated this = false →
  getValueAtPath (target this) path = Normal v →
  ((∀ n, v ≠ VNumber n) →
     throws (toBeGreaterThan this path num σ) ∧ throws (toBeLessThan this path num σ)
     ∧ returns (chain [Not; Check (ToBeGreaterThan path num)] this σ)
     ∧ returns (chain [Not; Check (ToBeLessThan path num)] this σ))
  ∧ ¬ (returns (toBeGreaterThan this path num σ) ∧ returns (toBeLessThan this path num σ)).
Proof.
  intros Hs Hn Hv.
  assert (Hg : toBeGreaterThan this path num σ
               = run_check (ToBeGreaterThan path num) this σ) by reflexivity.
  assert (Hl : toBeLessThan this path num σ
               = run_check (ToBeLessThan path num) this σ) by reflexivity.
  rewrite Hg, Hl. cbn [chain invoke]. unfold mbind, M_bind.
  rewrite get_not_eq, Hs, !run_check_policy.
  unfold verdict. cbn [check_path predicate_on target negated].
  rewrite Hv, Hn. unfold returns, throws, mret, M_ret. split.
  - intros Hnum. destruct v; try (by destruct (Hnum n)); cbn;
      rewrite ?handleError_strict by done; cbn;
      repeat split; eexists; reflexivity.
  - intros [[a Ha] [b Hb]]. destruct v; cbn in *;
      rewrite ?handleError_strict in * by done; try discriminate Ha.
    destruct (n >? num) eqn:E1, (n <? num) eqn:E2; cbn in *;
      rewrite ?handleError_strict in * by done;
      try discriminate Ha; try discriminate Hb. lia.
Qed.

Lemma numeric_checks_witness :
  soft view_strict = false ∧ negated view_strict = false
  ∧ getValueAtPath (VObject [("d", VString "10")]) "d" = Normal (VString "10")
  ∧ throws (toBeGreaterThan (mkJsonAssertion (VObject [("d", VString "10")])
                               false false 0%nat None) "d" 5 store_new).
Proof.
  split; [reflexivity|]. split; [reflexivity|]. split; [reflexivity|].
  destruct (numeric_checks_do_not_coerce
              (mkJsonAssertion (VObject [("d", VString "10")]) false false 0%nat None)
              store_new "d" (VString "10") 5 eq_refl eq_refl eq_refl) as [H _].
  apply H. intros n. discriminate.
Defined.

(** ** The private capacity test *)

(** X18. [canCollectError] and [handleError] agree on when a soft view is
    full: [handleError] records the failure exactly when
    [canCollectError] answers [true], and throws the capacity error
    exactly when it answers [false]; in strict mode [canCollectError]
    is always [true]. *)
Theorem canCollectError_agrees_with_handleError
    (this : JsonAssertion) (σ : store) (err : Error) :
  ∃ b, canCollectError this σ = (Normal b, σ)
       ∧ (soft this = false → b = true)
       ∧ (soft this = true →
            if b
            then handleError this err σ
                 = (Normal this, <[errors this := array_at σ (errors this) ++ [err]]> σ)
            else ∃ m, maxErrors this = Some m
                      ∧ handleError this err σ = (Throw (mkError (capacity_message m)), σ)).
Proof.
  unfold canCollectError, handleError. unfold_M. eexists. split; [reflexivity|].
  destruct (soft this); cbn; split; try done; intros _.
  destruct (maxErrors this) as [m|]; [|done].
  rewrite Z.geb_leb.
  destruct (Z.ltb_spec (Z.of_nat (length (array_at σ (errors this)))) m) as [Hlt|Hge].
  - by rewrite (proj2 (Z.leb_gt _ _) Hlt).
  - exists m. split; [done|]. by rewrite (proj2 (Z.leb_le _ _) Hge).
Qed.

(** ** Matching values *)

Lemma same_json_sym a b : same_json a b = same_json b a.
Proof.
  unfold same_json. apply bool_decide_ext. split; congruence.
Qed.

(** X19. [toBeOneOf] is [toMatchValue] tried on each candidate: on an
    unnegated strict view it passes exactly when [toMatchValue] without
    options passes for some candidate of the list; with no candidate it
    fails. *)
Theorem toBeOneOf_is_some_toMatchValue
    (this : JsonAssertion) (σ : store) (path : string) (values : list value) :
  soft this = false → negated this = false →
  (toBeOneOf this path values σ = (Normal this, σ)
   ↔ ∃ expected, In expected values
                 ∧ toMatchValue this path expected None σ = (Normal this, σ))
  ∧ throws (toBeOneOf this path [] σ).
Proof.
  intros Hs Hn.
  assert (Ho : ∀ vs, toBeOneOf this path vs σ = run_check (ToBeOneOf path vs) this σ)
    by reflexivity.
  assert (Hm : ∀ e, toMatchValue this path e None σ
                    = run_check (ToMatchValue path e None) this σ) by reflexivity.
  split.
  - rewrite Ho, (proj1 (strict_passes_iff _ this σ Hs)).
    setoid_rewrite Hm. setoid_rewrite (proj1 (strict_passes_iff _ this σ Hs)).
    unfold verdict. cbn [check_path predicate_on opt_caseInsensitive].
    rewrite Hn, getValueAtPath_walk. set (v := fold_left _ _ _).
    destruct (existsb (λ x, same_json x v) values) eqn:E; cbn.
    + split; [intros _|done]. apply existsb_exists in E as (e & He & Hj).
      exists e. split; [done|]. by rewrite same_json_sym, Hj.
    + split; [done|]. intros (e & He & Hj). exfalso.
      assert (existsb (λ x, same_json x v) values = true); [|congruence].
      apply existsb_exists. exists e. split; [done|].
      rewrite same_json_sym. by destruct (same_json v e).
  - rewrite Ho.
    destruct (proj2 (proj2 (strict_passes_iff (ToBeOneOf path []) this σ Hs)))
      as [e He].
    + unfold verdict. cbn [check_path predicate_on existsb].
      by rewrite Hn, getValueAtPath_walk.
    + exists e. by rewrite He.
Qed.

Lemma toBeOneOf_witness :
  soft view_strict = false ∧ negated view_strict = false
  ∧ toBeOneOf view_strict "foo" [VString "a"; VNumber 1] store_new
    = (Normal view_strict, store_new)
  ∧ ∃ expected, In expected [VString "a"; VNumber 1]
                ∧ toMatchValue view_strict "foo" expected None store_new
                  = (Normal view_strict, store_new).
Proof.
  split; [reflexivity|]. split; [reflexivity|].
  assert (H : toBeOneOf view_strict "foo" [VString "a"; VNumber 1] store_new
              = (Normal view_strict, store_new)) by reflexivity.
  split; [exact H|].
  exact (proj1 (proj1 (toBeOneOf_is_some_toMatchValue view_strict store_new "foo"
                         [VString "a"; VNumber 1] eq_refl eq_refl)) H).
Defined.

Lemma lower_refl s : String.eqb (toLowerCase s) (toLowerCase s) = true.
Proof. apply String.eqb_refl. Qed.

(** X20. What a path resolves to matches itself: on an unnegated view, in
    either mode, [toMatchValue] against the resolved value passes with
    and without [caseInsensitive], and [toBeOneOf] passes for every list
    that holds it. *)
Theorem resolved_value_matches_itself
    (this : JsonAssertion) (σ : store) (path : string) (v : value) :
  negated this = false →
  getValueAtPath (target this) path = Normal v →
  (∀ options, toMatchValue this path v options σ = (Normal this, σ))
  ∧ (∀ values, In v values → toBeOneOf this path values σ = (Normal this, σ)).
Proof.
  intros Hn Hv. split.
  - intros options. unfold toMatchValue, mbind, M_bind, lift. rewrite Hv, Hn.
    destruct (opt_caseInsensitive options), v; cbn;
      rewrite ?same_json_refl, ?String.eqb_refl; done.
  - intros values Hin. unfold toBeOneOf, mbind, M_bind, lift. rewrite Hv, Hn.
    assert (existsb (λ x, same_json x v) values = true) as ->; [|done].
    apply existsb_exists. exists v. split; [done|apply same_json_refl].
Qed.

Lemma resolved_value_matches_itself_witness :
  negated view_soft = false
  ∧ getValueAtPath (target view_soft) "foo" = Normal (VNumber 1)
  ∧ toMatchValue view_soft "foo" (VNumber 1) None store_full
    = (Normal view_soft, store_full).
Proof.
  split; [reflexivity|]. split; [reflexivity|].
  exact (proj1 (resolved_value_matches_itself view_soft store_full "foo" (VNumber 1)
                  eq_refl eq_refl) None).
Defined.

Lemma prefix_app (s b : string) : String.prefix s (s +:+ b) = true.
Proof.
  induction s as [|c s IH].
  { rewrite str_app_nil_l. by destruct b. }
  rewrite str_app_cons.
  change (String.prefix (String c s) (String c (s +:+ b)))
    with (if ascii_dec c c then String.prefix s (s +:+ b) else false).
  destruct (ascii_dec c c) as [_|Hne]; [exact IH|by destruct Hne].
Qed.

Lemma includes_prefix (s h : string) : String.prefix s h = true → includes s h = true.
Proof. intros H. destruct h; cbn [includes]; by rewrite H. Qed.

Lemma includes_app (a s b : string) : includes s (a +:+ s +:+ b) = true.
Proof.
  induction a as [|c a IH].
  - rewrite str_app_nil_l. apply includes_prefix, prefix_app.
  - rewrite str_app_cons. cbn [includes]. rewrite IH.
    by destruct (String.prefix s _).
Qed.

(** X21. [toContainValue] finds every element of an array and every part of
    a string, where the expected value is first turned into a string
    (so the number 123 is found in ["abc123"]).  When the path resolves
    to neither an array nor a string, nothing is contained: in strict
    mode the check throws its failure for every expected value. *)
Theorem toContainValue_finds_members_and_substrings
    (this : JsonAssertion) (σ : store) (path : string) (v : value) :
  negated this = false →
  getValueAtPath (target this) path = Normal v →
  (∀ elems x, v = VArray elems → In x elems →
     toContainValue this path x σ = (Normal this, σ))
  ∧ (∀ a b x, v = VString (a +:+ ToString x +:+ b) →
       toContainValue this path x σ = (Normal this, σ))
  ∧ ((∀ elems, v ≠ VArray elems) → (∀ s, v ≠ VString s) → soft this = false →
       ∀ x, toContainValue this path x σ = (Throw (failure (ToContainValue path x) this v), σ)).
Proof.
  intros Hn Hv. unfold toContainValue, mbind, M_bind, lift. rewrite Hv, Hn.
  repeat split.
  - intros elems x -> Hin.
    assert (existsb (λ y, same_json y x) elems = true) as ->; [|done].
    apply existsb_exists. exists x. split; [done|apply same_json_refl].
  - intros a b x ->. by rewrite includes_app.
  - intros Ha Hstr Hs x. destruct v; try (by destruct (Ha elems));
      try (by destruct (Hstr s)); cbn; rewrite handleError_strict by done;
      unfold failure, not_word; by rewrite Hn.
Qed.

Lemma toContainValue_witness :
  negated view_strict = false
  ∧ getValueAtPath (VObject [("s", VString "abc123")]) "s" = Normal (VString "abc123")
  ∧ toContainValue (mkJsonAssertion (VObject [("s", VString "abc123")])
                      false false 0%nat None) "s" (VNumber 123) store_new
    = (Normal (mkJsonAssertion (VObject [("s", VString "abc123")])
                 false false 0%nat None), store_new).
Proof.
  split; [reflexivity|]. split; [reflexivity|].
  destruct (toContainValue_finds_members_and_substrings
              (mkJsonAssertion (VObject [("s", VString "abc123")]) false false 0%nat None)
              store_new "s" (VString "abc123") eq_refl eq_refl) as (_ & H & _).
  exact (H "abc" EmptyString (VNumber 123) eq_refl).
Defined.

(** ** Scalars are compared exactly *)

Lemma unescape_escape c r : unescape_head (json_escape c +:+ r) = Some (c, r).
Proof. destruct c as [[] [] [] [] [] [] [] []]; reflexivity. Qed.

Lemma unescape_dquote r : unescape_head (String dquote r) = None.
Proof. reflexivity. Qed.

(** The text of a string determines the string. *)
Lemma json_escape_all_inj s1 s2 :
  json_escape_all s1 +:+ String dquote EmptyString
  = json_escape_all s2 +:+ String dquote EmptyString → s1 = s2.
Proof.
  revert s2. induction s1 as [|c1 t1 IH]; intros [|c2 t2]; cbn [json_escape_all].
  - done.
  - rewrite str_app_assoc, str_app_nil_l. intros H.
    apply (f_equal unescape_head) in H.
    by rewrite unescape_escape, unescape_dquote in H.
  - rewrite str_app_assoc, str_app_nil_l. intros H.
    apply (f_equal unescape_head) in H.
    by rewrite unescape_escape, unescape_dquote in H.
  - rewrite !str_app_assoc. intros H.
    apply (f_equal unescape_head) in H. rewrite !unescape_escape in H.
    injection H as -> H. f_equal. by apply IH.
Qed.

Lemma json_quote_inj s1 s2 : json_quote s1 = json_quote s2 → s1 = s2.
Proof. unfold json_quote. intros [= H]. by apply json_escape_all_inj. Qed.

Lemma to_int_nonnil n : Z.to_int n ≠ Pos Nil ∧ Z.to_int n ≠ Neg Nil.
Proof.
  split; intros H; pose proof (DecimalZ.of_to n) as Hn; rewrite H in Hn;
    cbn in Hn; subst n; discriminate H.
Qed.

(** The numeral of a number determines the number. *)
Lemma string_of_Z_inj a b : string_of_Z a = string_of_Z b → a = b.
Proof.
  unfold string_of_Z. intros H. apply DecimalZ.to_int_inj.
  apply (f_equal NilZero.int_of_string) in H.
  destruct (to_int_nonnil a), (to_int_nonnil b).
  rewrite !NilZero.isi in H by done. by injection H.
Qed.

Lemma uint_text_sort d : sort_of_text (Some (NilZero.string_of_uint d)) = SNumber.
Proof. by destruct d. Qed.

Lemma string_of_Z_sort n : sort_of_text (Some (string_of_Z n)) = SNumber.
Proof.
  unfold string_of_Z. destruct (Z.to_int n) as [d|d]; cbn [NilZero.string_of_int].
  - apply uint_text_sort.
  - reflexivity.
Qed.

(** The text [JSON.stringify] writes starts as the sort of its value
    requires, so values of different sorts never have the same text. *)
Lemma stringify_sort v : sort_of_text (JSON_stringify v) = sort_of_value v.
Proof.
  destruct v as [| |[]|n|s|l|ps]; try reflexivity. apply string_of_Z_sort.
Qed.

Lemma same_json_scalar v expected :
  scalar expected = true →
  JSON_stringify v = JSON_stringify expected → v = expected.
Proof.
  intros Hsc H.
  pose proof (f_equal sort_of_text H) as Hsort. rewrite !stringify_sort in Hsort.
  destruct expected as [| |b|n|s|l|ps]; try discriminate Hsc;
    destruct v as [| |b'|n'|s'|l'|ps']; try discriminate Hsort; try done.
  - destruct b, b'; try done; discriminate H.
  - cbn in H. injection H as H. f_equal. by apply string_of_Z_inj.
  - cbn in H. injection H as H. f_equal. apply json_quote_inj.
    unfold json_quote. by f_equal.
Qed.



Lemma toMatchValue_verdict this path expected options v :
  getValueAtPath (target this) path = Normal v → negated this = false →
  verdict (ToMatchValue path expected options) this = Normal None
  ↔ match opt_caseInsensitive options, v, expected with
    | true, VString sv, VString se => String.eqb (toLowerCase sv) (toLowerCase se)
    | _, _, _ => same_json v expected
    end = true.
Proof.
  intros Hv Hn. unfold verdict. cbn [check_path predicate_on]. rewrite Hv, Hn.
  destruct (match opt_caseInsensitive options, v, expected with
            | true, VString sv, VString se =>
                String.eqb (toLowerCase sv) (toLowerCase se)
            | _, _, _ => same_json v expected
            end); cbn; split; done.
Qed.

(** X23. [caseInsensitive] applies to two strings and to nothing else: on an
    unnegated strict view, when the resolved and the expected value are
    both strings the check passes exactly when their lower-case forms
    are equal, which holds whenever the exact check passes; when either
    is not a string the option changes nothing in the outcome. *)
Theorem caseInsensitive_applies_to_strings_only
    (this : JsonAssertion) (σ : store) (path : string) (v expected : value) :
  soft this = false → negated this = false →
  getValueAtPath (target this) path = Normal v →
  let ci := Some {| caseInsensitive := Some true |} in
  (∀ sv se, v = VString sv → expected = VString se →
     (toMatchValue this path expected ci σ = (Normal this, σ)
      ↔ toLowerCase sv = toLowerCase se)
     ∧ (toMatchValue this path expected None σ = (Normal this, σ) →
        toMatchValue this path expected ci σ = (Normal this, σ)))
  ∧ ((∀ sv, v ≠ VString sv) ∨ (∀ se, expected ≠ VString se) →
     (toMatchValue this path expected ci σ = (Normal this, σ)
      ↔ toMatchValue this path expected None σ = (Normal this, σ))).
Proof.
  intros Hs Hn Hv ci.
  change (toMatchValue this path expected ci σ)
    with (run_check (ToMatchValue path expected ci) this σ).
  change (toMatchValue this path expected None σ)
    with (run_check (ToMatchValue path expected None) this σ).
  assert (Hrw : ∀ options,
             run_check (ToMatchValue path expected options) this σ = (Normal this, σ)
             ↔ match opt_caseInsensitive options, v, expected with
               | true, VString sv, VString se =>
                   String.eqb (toLowerCase sv) (toLowerCase se)
               | _, _, _ => same_json v expected
               end = true).
  { intros options. rewrite (proj1 (strict_passes_iff _ this σ Hs)).
    by apply toMatchValue_verdict. }
  split.
  - intros sv se Hsv Hse. rewrite !Hrw. subst v expected.
    cbn [opt_caseInsensitive ci caseInsensitive default]. split.
    + split; [by intros H%String.eqb_eq|intros ->; apply String.eqb_refl].
    + intros E. unfold same_json in E. apply bool_decide_eq_true in E.
      pose proof (same_json_scalar (VString sv) (VString se) eq_refl E) as [= ->].
      apply String.eqb_refl.
  - intros Hns. rewrite !Hrw.
    cbn [opt_caseInsensitive ci caseInsensitive default].
    destruct Hns as [H|H]; destruct v, expected; try done.
    + by destruct (H s).
    + by destruct (H s0).
Qed.

Lemma caseInsensitive_witness :
  soft view_strict = false ∧ negated view_strict = false
  ∧ getValueAtPath (VObject [("greeting", VString "Hello World")]) "greeting"
    = Normal (VString "Hello World")
  ∧ toMatchValue (mkJsonAssertion (VObject [("greeting", VString "Hello World")])
                    false false 0%nat None)
      "greeting" (VString "hello world") (Some {| caseInsensitive := Some true |})
      store_new
    = (Normal (mkJsonAssertion (VObject [("greeting", VString "Hello World")])
                 false false 0%nat None), store_new).
Proof.
  repeat (split; [reflexivity|]).
  destruct (caseInsensitive_applies_to_strings_only
              (mkJsonAssertion (VObject [("greeting", VString "Hello World")])
                 false false 0%nat None)
              store_new "greeting" (VString "Hello World") (VString "hello world")
              eq_refl eq_refl eq_refl) as [H _].
  destruct (H "Hello World" "hello world" eq_refl eq_refl) as [Hiff _].
  apply Hiff. reflexivity.
Defined.

(** ** Past the limit *)

(** X13. When a soft chain has more failures than the session has room for,
    it records the first ones up to the limit, in order, and ends at the
    next failing check with the capacity error; nothing after it runs. *)
Theorem soft_chain_stops_at_the_limit
    (calls : list call) (this : JsonAssertion) (σ : store) (m : Z) (k : nat) :
  soft this = true →
  maxErrors this = Some m →
  Forall faultless_call calls →
  Z.of_nat (length (array_at σ (errors this)) + k) = m →
  (k < length (failures_of calls this))%nat →
  ∃ σ',
    chain calls this σ = (Throw (mkError (capacity_message m)), σ')
    ∧ getErrors this σ'
      = (Normal (array_at σ (errors this) ++ take k (failures_of calls this)), σ').
Proof.
  revert this σ k. induction calls as [|c calls IH]; intros this σ k Hs Hm Hf Hk Hlt.
  - cbn in Hlt. lia.
  - apply Forall_cons in Hf as [Hc Hf]. rewrite chain_cons.
    destruct c as [|c]; cbn [invoke failures_of] in *.
    + rewrite get_not_eq, Hs.
      set (next := mkJsonAssertion _ _ _ _ _).
      assert (Hnext : next = set_negated (negb (negated this)) this).
      { unfold next, set_negated. by rewrite Hs. }
      rewrite <- Hnext in Hlt.
      destruct (IH next (<[fresh (dom σ) := []]> σ) k) as (σ' & Hr & Hg); try done.
      { cbn. by rewrite array_at_fresh. }
      exists σ'. split; [done|]. revert Hg. unfold getErrors, array_spread.
      cbn. rewrite array_at_fresh. by rewrite Hnext.
    + rewrite run_check_policy.
      destruct (verdict_faultless c this Hc) as [[err|] Hv]; rewrite Hv in *.
      * destruct k as [|k].
        -- rewrite (handleError_full this err σ m) by (done || lia).
           eexists. split; [reflexivity|]. unfold getErrors, array_spread.
           cbn. by rewrite app_nil_r.
        -- assert (Hcap : has_capacity this σ).
           { unfold has_capacity. rewrite Hm. lia. }
           rewrite handleError_record by done.
           destruct (IH this (<[errors this := array_at σ (errors this) ++ [err]]> σ) k)
             as (σ' & Hr & Hg); try done.
           { rewrite array_at_insert_eq, length_app. cbn. lia. }
           { cbn in Hlt. lia. }
           exists σ'. split; [done|]. rewrite Hg, array_at_insert_eq.
           cbn [take]. by rewrite <- app_assoc.
      * by apply IH.
Qed.

Lemma soft_chain_stops_witness :
  soft view_soft = true ∧ maxErrors view_soft = Some 1
  ∧ Forall faultless_call
      [Check (ToHaveKey "bar"); Check (ToHaveKey "baz"); Check (ToHaveKey "foo")]
  ∧ ∃ σ',
      chain [Check (ToHaveKey "bar"); Check (ToHaveKey "baz"); Check (ToHaveKey "foo")]
            view_soft store_new
      = (Throw (mkError (capacity_message 1)), σ')
      ∧ getErrors view_soft σ' = (Normal [mkError "Expected key 'bar' to exist"], σ').
Proof.
  assert (Hf : Forall faultless_call
                 [Check (ToHaveKey "bar"); Check (ToHaveKey "baz");
                  Check (ToHaveKey "foo")]).
  { repeat constructor. }
  split; [reflexivity|]. split; [reflexivity|]. split; [exact Hf|].
  destruct (soft_chain_stops_at_the_limit
              [Check (ToHaveKey "bar"); Check (ToHaveKey "baz"); Check (ToHaveKey "foo")]
              view_soft store_new 1 1 eq_refl eq_refl Hf eq_refl)
    as (σ' & Hc & Hg).
  { vm_compute. lia. }
  exists σ'. split; [exact Hc|exact Hg].
Defined.

(** ** Where resolved values come from *)

